(** * A shallow embedding of the pattern engine of putao-cf (src/main.rs)

    The Rust program parses a pattern into a [Vec<Node>] and runs a
    recursive backtracking matcher over the [Vec<char>] of the input.
    Characters are Unicode scalar values; we model a [char] as its code
    point in [N].  Recursion in the Rust code is unbounded, so every
    recursive function here takes a [fuel] argument that is decremented
    once per Rust call; running out of fuel is the outcome [NoFuel], kept
    apart from a Rust panic ([Panic]) and from a returned value ([Done]). *)

From Stdlib Require Import Ascii String.
From Stdlib Require Import List Arith Lia NArith ZArith Bool.
Import ListNotations.

Set Warnings "-register-all".

Open Scope list_scope.

(** ** Characters *)

Definition char := N.

Definition ch (a : ascii) : char := N_of_ascii a.

(** A Rust string literal as the [Vec<char>] it collects to. *)
Definition str (s : string) : list char := map ch (list_ascii_of_string s).

Definition NL : char := 10%N.
Definition CR : char := 13%N.
Definition DOLLAR : char := 36%N.
Definition LPAREN : char := 40%N.
Definition RPAREN : char := 41%N.
Definition STAR : char := 42%N.
Definition PLUS : char := 43%N.
Definition DOT : char := 46%N.
Definition COLON : char := 58%N.
Definition QMARK : char := 63%N.
Definition LBRACK : char := 91%N.
Definition BSLASH : char := 92%N.
Definition RBRACK : char := 93%N.
Definition CARET : char := 94%N.
Definition UNDERSCORE : char := 95%N.
Definition LBRACE : char := 123%N.
Definition BAR : char := 124%N.
Definition RBRACE : char := 125%N.

(** [char::is_ascii_digit] and [char::is_ascii_alphanumeric]. *)
Definition is_ascii_digit (c : char) : bool := (48 <=? c)%N && (c <=? 57)%N.

Definition is_ascii_alphanumeric (c : char) : bool :=
  is_ascii_digit c || ((65 <=? c)%N && (c <=? 90)%N)
  || ((97 <=? c)%N && (c <=? 122)%N).

(** [str::contains(char)] on a class member string. *)
Definition contains (s : list char) (c : char) : bool := existsb (N.eqb c) s.

Fixpoint list_eqb (a b : list char) : bool :=
  match a, b with
  | [], [] => true
  | x :: a', y :: b' => N.eqb x y && list_eqb a' b'
  | _, _ => false
  end.

(** The slice [cs[lo..hi]] (only taken where the Rust bounds hold). *)
Definition slice (cs : list char) (lo hi : nat) : list char :=
  firstn (hi - lo) (skipn lo cs).

(** ** Outcomes of a Rust call *)

Inductive outcome (A : Type) : Type :=
| Done (a : A)
| Panic
| NoFuel.
Arguments Done {A} a.
Arguments Panic {A}.
Arguments NoFuel {A}.

Definition obind {A B} (m : outcome A) (k : A -> outcome B) : outcome B :=
  match m with
  | Done a => k a
  | Panic => Panic
  | NoFuel => NoFuel
  end.

(** [anyhow::Result]: the parse errors raised with [bail!] or [?]. *)
Inductive perr : Type :=
| InvalidEscape
| UnclosedClass
| InvalidRepetition
| ParseIntError.

Inductive res (A : Type) : Type :=
| Ok (a : A)
| Err (e : perr).
Arguments Ok {A} a.
Arguments Err {A} e.

(** The [?] operator inside an outcome. *)
Definition rbind {A B} (m : outcome (res A)) (k : A -> outcome (res B))
  : outcome (res B) :=
  obind m (fun r => match r with Ok a => k a | Err e => Done (Err e) end).

(** ** The AST: [enum Node] *)

Inductive node : Type :=
| Lit (c : char)
| Digit
| Word
| Any
| Pos (s : list char)
| Neg (s : list char)
| Opt (inner : node)
| Plus (inner : node)
| Star (inner : node)
| Rep (inner : node) (count : nat)
| Cap (id : nat) (brs : list (list node))
| CapEnd (slot : nat) (start : nat)
| Ref (n : nat).

(** ** Parser: [parse], [elems], [branches] *)

(** The escape [\e] (lines 54-61). *)
Definition escape (e : char) : node :=
  if N.eqb e (ch "d") then Digit
  else if N.eqb e (ch "w") then Word
  else if (49 <=? e)%N && (e <=? 57)%N then Ref (N.to_nat (e - 48))
  else Lit e.

(** The members of a class, up to the first [']'] (lines 68-72). *)
Fixpoint class_members (l : list char) : list char * list char :=
  match l with
  | c :: r =>
      if N.eqb c RBRACK then ([], l)
      else let '(s, rest) := class_members r in (c :: s, rest)
  | [] => ([], [])
  end.

(** A class body after [[] (lines 63-77): the node and the input after
    the class. *)
Definition class (cs : list char) : res (node * list char) :=
  let '(neg, cs1) :=
    match cs with
    | c :: r => if N.eqb c CARET then (true, r) else (false, cs)
    | [] => (false, cs)
    end in
  let '(s, rest) := class_members cs1 in
  match rest with
  | _ :: rest' => Ok (if neg then Neg s else Pos s, rest')
  | [] => Err UnclosedClass
  end.

(** The body of a group (lines 82-97): characters up to the [)] that
    brings the depth [d] below zero; that [)] is consumed, not kept. When
    no such [)] exists the whole input is taken and nothing is reported. *)
Fixpoint collect_group (cs : list char) (d : nat) : list char * list char :=
  match cs with
  | [] => ([], [])
  | c :: r =>
      if N.eqb c LPAREN then
        let '(b, rest) := collect_group r (S d) in (c :: b, rest)
      else if N.eqb c RPAREN then
        match d with
        | O => ([], r)
        | S d' => let '(b, rest) := collect_group r d' in (c :: b, rest)
        end
      else let '(b, rest) := collect_group r d in (c :: b, rest)
  end.

(** Splitting a group body at [|] of depth 0 (lines 140-163); [d] is the
    [i32] depth, which may go negative. *)
Fixpoint split_bar (cs : list char) (d : Z) (cur : list char)
  : list (list char) :=
  match cs with
  | [] => [cur]
  | c :: r =>
      if Z.eqb d 0 && N.eqb c BAR then cur :: split_bar r d []
      else
        let d' := if N.eqb c LPAREN then Z.succ d
                  else if N.eqb c RPAREN then Z.pred d else d in
        split_bar r d' (cur ++ [c])
  end.

(** [branches]: each segment is parsed by [elems] (passed in as [el]),
    threading the group counter. *)
Definition branches
    (el : list char -> nat -> outcome (res (list node * list char * nat)))
    (s : list char) (gid : nat) : outcome (res (list (list node) * nat)) :=
  let fix go (segs : list (list char)) (g : nat) :=
    match segs with
    | [] => Done (Ok ([], g))
    | seg :: segs' =>
        rbind (el seg g) (fun '(ns, _, g1) =>
        rbind (go segs' g1) (fun '(out, g2) => Done (Ok (ns :: out, g2))))
    end in
  go (split_bar s 0 []) gid.

(** [str::parse::<usize>] on a string of ASCII digits. *)
Definition parse_usize (ds : list char) : res nat :=
  match ds with
  | [] => Err ParseIntError
  | _ =>
      let v := fold_left (fun acc d => (acc * 10 + (d - 48))%N) ds 0%N in
      if (v <? 2 ^ 64)%N then Ok (N.to_nat v) else Err ParseIntError
  end.

Fixpoint span_digits (l : list char) : list char * list char :=
  match l with
  | c :: r =>
      if is_ascii_digit c then let '(ds, rest) := span_digits r in (c :: ds, rest)
      else ([], l)
  | [] => ([], [])
  end.

(** The postfix quantifier check after an atom (lines 108-131). *)
Definition quant (n : node) (cs : list char) : res (node * list char) :=
  match cs with
  | q :: r =>
      if N.eqb q PLUS then Ok (Plus n, r)
      else if N.eqb q QMARK then Ok (Opt n, r)
      else if N.eqb q STAR then Ok (Star n, r)
      else if N.eqb q LBRACE then
        let '(ds, rest) := span_digits r in
        match rest with
        | c :: rest' =>
            if N.eqb c RBRACE then
              match parse_usize ds with
              | Ok count => Ok (Rep n count, rest')
              | Err e => Err e
              end
            else Err InvalidRepetition
        | [] => Err InvalidRepetition
        end
      else Ok (n, cs)
  | [] => Ok (n, cs)
  end.

(** One atom at the head [c] of the input (lines 49-107), [el] parsing
    group bodies. The [)] case is handled by the caller, [elems]. *)
Definition atom
    (el : list char -> nat -> outcome (res (list node * list char * nat)))
    (c : char) (cs1 : list char) (gid : nat)
  : outcome (res (node * list char * nat)) :=
  if N.eqb c BSLASH then
    match cs1 with
    | [] => Done (Err InvalidEscape)
    | e :: cs2 => Done (Ok (escape e, cs2, gid))
    end
  else if N.eqb c LBRACK then
    match class cs1 with
    | Ok (n, cs2) => Done (Ok (n, cs2, gid))
    | Err e => Done (Err e)
    end
  else if N.eqb c LPAREN then
    let id := S gid in
    let '(buf, cs2) := collect_group cs1 0 in
    rbind (branches el buf id) (fun '(brs, g) => Done (Ok (Cap id brs, cs2, g)))
  else if N.eqb c DOT then Done (Ok (Any, cs1, gid))
  else Done (Ok (Lit c, cs1, gid)).

(** [elems]: the loop of lines 47-134 over the remaining input [cs]; it
    returns the nodes, the input where it stopped ([[]] or starting with
    [)]) and the group counter. *)
Fixpoint elems (fuel : nat) (cs : list char) (gid : nat) {struct fuel}
  : outcome (res (list node * list char * nat)) :=
  match fuel with
  | O => NoFuel
  | S f =>
      match cs with
      | [] => Done (Ok ([], [], gid))
      | c :: cs1 =>
          if N.eqb c RPAREN then Done (Ok ([], cs, gid))
          else
            rbind (atom (elems f) c cs1 gid) (fun '(n, cs2, g) =>
            match quant n cs2 with
            | Err e => Done (Err e)
            | Ok (n', cs3) =>
                rbind (elems f cs3 g) (fun '(out, rest, g') =>
                Done (Ok (n' :: out, rest, g')))
            end)
      end
  end.

(** [pat.ends_with('$') && !pat.ends_with("\\$")]. *)
Definition end_anchor (pat : list char) : bool :=
  match rev pat with
  | d :: r =>
      N.eqb d DOLLAR &&
      negb (match r with b :: _ => N.eqb b BSLASH | [] => false end)
  | [] => false
  end.

(** [parse] (lines 27-42). Every [elems] call is on a shorter input, so
    [S (length cs)] is enough fuel (see [elems_total]). *)
Definition parse (pattern : list char)
  : outcome (res (list node * bool * bool)) :=
  let '(start, pat1) :=
    match pattern with
    | c :: r => if N.eqb c CARET then (true, r) else (false, pattern)
    | [] => (false, pattern)
    end in
  let '(end_, cs) :=
    if end_anchor pat1 then (true, removelast pat1) else (false, pat1) in
  rbind (elems (S (length cs)) cs 0) (fun '(ns, _, _) =>
  Done (Ok (ns, start, end_))).

(** ** Matcher: [match_from] and its local [more] *)

Definition captures := list (option (list char)).

(** [nc.resize(slot + 1, None)] when too short, then [nc[slot] = Some s]. *)
Fixpoint set_slot (c : captures) (slot : nat) (s : list char) : captures :=
  match c, slot with
  | [], O => [Some s]
  | [], S k => None :: set_slot [] k s
  | _ :: r, O => Some s :: r
  | x :: r, S k => x :: set_slot r k s
  end.

Fixpoint match_from (fuel pos : nat) (nodes : list node) (cs : list char)
    (caps : captures) {struct fuel} : outcome (option (nat * captures)) :=
  match fuel with
  | O => NoFuel
  | S f =>
  match nodes with
  | [] => Done (Some (pos, caps))
  | head :: tail =>
  match head with
  | Plus inner => more f pos inner tail cs caps
  | Star inner =>
      obind (more f pos inner tail cs caps) (fun r =>
      match r with
      | Some ec => Done (Some ec)
      | None => match_from f pos tail cs caps
      end)
  | Rep inner count =>
      let fix rep (k p : nat) (c : list (option (list char))) :=
        match k with
        | O => match_from f p tail cs c
        | S k' =>
            obind (match_from f p [inner] cs c) (fun r =>
            match r with
            | Some (np, nc) => rep k' np nc
            | None => Done None
            end)
        end in
      rep count pos caps
  | Opt inner =>
      obind (match_from f pos [inner] cs caps) (fun r =>
      match r with
      | Some (p1, c1) =>
          obind (match_from f p1 tail cs c1) (fun r2 =>
          match r2 with
          | Some ec => Done (Some ec)
          | None => match_from f pos tail cs caps
          end)
      | None => match_from f pos tail cs caps
      end)
  | Lit x =>
      match nth_error cs pos with
      | Some y => if N.eqb y x then match_from f (S pos) tail cs caps else Done None
      | None => Done None
      end
  | Digit =>
      match nth_error cs pos with
      | Some y => if is_ascii_digit y then match_from f (S pos) tail cs caps
                  else Done None
      | None => Done None
      end
  | Word =>
      match nth_error cs pos with
      | Some y => if is_ascii_alphanumeric y || N.eqb y UNDERSCORE
                  then match_from f (S pos) tail cs caps else Done None
      | None => Done None
      end
  | Any =>
      match nth_error cs pos with
      | Some _ => match_from f (S pos) tail cs caps
      | None => Done None
      end
  | Pos s =>
      match nth_error cs pos with
      | Some y => if contains s y then match_from f (S pos) tail cs caps
                  else Done None
      | None => Done None
      end
  | Neg s =>
      match nth_error cs pos with
      | Some y => if negb (contains s y) then match_from f (S pos) tail cs caps
                  else Done None
      | None => Done None
      end
  | Cap id brs =>
      (* [id - 1] underflows (a panic) at [id = 0] *)
      if Nat.eqb id 0 then Panic else
      let slot := id - 1 in
      let fix try_brs (bs : list (list node)) :=
        match bs with
        | [] => Done None
        | b :: bs' =>
            obind (match_from f pos (b ++ CapEnd slot pos :: tail) cs caps)
              (fun r =>
               match r with
               | Some ec => Done (Some ec)
               | None => try_brs bs'
               end)
        end in
      try_brs brs
  | CapEnd slot start =>
      (* [cs[start..pos]] panics unless [start <= pos <= cs.len()] *)
      if (start <=? pos) && (pos <=? length cs) then
        match_from f pos tail cs (set_slot caps slot (slice cs start pos))
      else Panic
  | Ref n =>
      (* [n - 1] underflows (a panic) at [n = 0] *)
      if Nat.eqb n 0 then Panic else
      match nth_error caps (n - 1) with
      | Some (Some s) =>
          let len := length s in
          if (pos + len <=? length cs) && list_eqb (slice cs pos (pos + len)) s
          then match_from f (pos + len) tail cs caps
          else Done None
      | _ => Done None
      end
  end
  end
  end
with more (fuel pos : nat) (inner : node) (rest : list node) (cs : list char)
    (caps : captures) {struct fuel} : outcome (option (nat * captures)) :=
  match fuel with
  | O => NoFuel
  | S f =>
      obind (match_from f pos [inner] cs caps) (fun r =>
      match r with
      | Some (p1, c1) =>
          obind (more f p1 inner rest cs c1) (fun r2 =>
          match r2 with
          | Some ec => Done (Some ec)
          | None => match_from f p1 rest cs c1
          end)
      | None => Done None
      end)
  end.

(** ** [is_match] (lines 170-180) *)

(** [starts.iter().any(..)]: the first start (in order) whose first match
    is accepted. *)
Fixpoint any_start (m : nat -> outcome (option (nat * captures)))
    (end_ : bool) (n : nat) (starts : list nat) : outcome bool :=
  match starts with
  | [] => Done false
  | st :: starts' =>
      obind (m st) (fun r =>
      match r with
      | Some (e, _) => if (if end_ then Nat.eqb e n else true) then Done true
                       else any_start m end_ n starts'
      | None => any_start m end_ n starts'
      end)
  end.

Definition is_match (fuel : nat) (input pat : list char) : outcome (res bool) :=
  rbind (parse pat) (fun '(nodes, start, end_) =>
  let n := length input in
  let starts := if start then [0] else seq 0 (S n) in
  obind (any_start (fun st => match_from fuel st nodes input []) end_ n starts)
    (fun b => Done (Ok b))).

(** ** Line scanner: [print_with_prefix] and [grep_content] *)

(** [content.split_inclusive('\n')]: pieces ending in [\n], then a last
    piece without one when the content does not end in [\n]. *)
Fixpoint split_inclusive (cs : list char) (cur : list char) : list (list char) :=
  match cs with
  | [] => match cur with [] => [] | _ => [cur] end
  | c :: r =>
      if N.eqb c NL then (cur ++ [c]) :: split_inclusive r []
      else split_inclusive r (cur ++ [c])
  end.

(** [str::trim_end_matches] with a character predicate. *)
Definition trim_end (p : char -> bool) (s : list char) : list char :=
  let fix drop (l : list char) :=
    match l with
    | c :: r => if p c then drop r else l
    | [] => []
    end in
  rev (drop (rev s)).

Definition ends_with_nl (seg : list char) : bool :=
  match rev seg with c :: _ => N.eqb c NL | [] => false end.

(** What [print_with_prefix] writes (lines 183-190); [println!] adds [\n]. *)
Definition print_with_prefix (prefix : option (list char)) (seg : list char)
  : list char :=
  match prefix with
  | Some pfx =>
      if ends_with_nl seg then pfx ++ [COLON] ++ seg
      else pfx ++ [COLON] ++ seg ++ [NL]
  | None => if ends_with_nl seg then seg else seg ++ [NL]
  end.

(** [grep_content] (lines 193-213). The line test [ism] is [is_match] on
    the pattern; the result pairs what was printed with the returned
    value. Lengths are counted in characters rather than bytes; [consumed]
    and [content.len()] are lengths of the same text in both units. *)
Section Scanner.
Variable ism : list char -> outcome (res bool).

Fixpoint scan (segs : list (list char)) (prefix : option (list char))
    (out : list char) (any : bool) (consumed : nat)
  : list char * outcome (res (bool * nat)) :=
  match segs with
  | [] => (out, Done (Ok (any, consumed)))
  | seg :: segs' =>
      let ln := trim_end (fun c => N.eqb c NL || N.eqb c CR) seg in
      match ism ln with
      | Done (Ok true) =>
          scan segs' prefix (out ++ print_with_prefix prefix seg) true
            (consumed + length seg)
      | Done (Ok false) => scan segs' prefix out any (consumed + length seg)
      | Done (Err e) => (out, Done (Err e))
      | Panic => (out, Panic)
      | NoFuel => (out, NoFuel)
      end
  end.

Definition grep_content (content : list char) (prefix : option (list char))
  : list char * outcome (res bool) :=
  match scan (split_inclusive content []) prefix [] false 0 with
  | (out, Done (Ok (any, consumed))) =>
      if consumed <? length content then
        let seg := skipn consumed content in
        let ln := trim_end (fun c => N.eqb c CR) seg in
        match ism ln with
        | Done (Ok true) => (out ++ print_with_prefix prefix seg, Done (Ok true))
        | Done (Ok false) => (out, Done (Ok any))
        | Done (Err e) => (out, Done (Err e))
        | Panic => (out, Panic)
        | NoFuel => (out, NoFuel)
        end
      else (out, Done (Ok any))
  | (out, Done (Err e)) => (out, Done (Err e))
  | (out, Panic) => (out, Panic)
  | (out, NoFuel) => (out, NoFuel)
  end.
End Scanner.

(** ** A reading of "the whole input matches p" from the spec's words

    Spec-side, nondeterministic: any alternative, any number of
    repetitions, any choice for [?] may be taken (spec section 4.2, without
    the engine's first-success order). [nm cs pos ns c e c'] says the
    sequence [ns] can match [cs] from [pos] to [e]. *)
(** The single-character tests of the spec's table. *)
Definition char_pred (n : node) (x : char) : bool :=
  match n with
  | Lit c => N.eqb x c
  | Digit => is_ascii_digit x
  | Word => is_ascii_alphanumeric x || N.eqb x UNDERSCORE
  | Any => true
  | Pos s => contains s x
  | Neg s => negb (contains s x)
  | _ => false
  end.

Inductive nm (cs : list char) : nat -> list node -> captures -> nat -> captures -> Prop :=
| nm_nil pos c : nm cs pos [] c pos c
| nm_char pos x n t c e c' :
    nth_error cs pos = Some x -> char_pred n x = true ->
    nm cs (S pos) t c e c' -> nm cs pos (n :: t) c e c'
| nm_opt_yes pos inner t c p1 c1 e c' :
    nm cs pos [inner] c p1 c1 -> nm cs p1 t c1 e c' ->
    nm cs pos (Opt inner :: t) c e c'
| nm_opt_no pos inner t c e c' :
    nm cs pos t c e c' -> nm cs pos (Opt inner :: t) c e c'
| nm_plus_one pos inner t c p1 c1 e c' :
    nm cs pos [inner] c p1 c1 -> nm cs p1 t c1 e c' ->
    nm cs pos (Plus inner :: t) c e c'
| nm_plus_more pos inner t c p1 c1 e c' :
    nm cs pos [inner] c p1 c1 -> nm cs p1 (Plus inner :: t) c1 e c' ->
    nm cs pos (Plus inner :: t) c e c'
| nm_star_zero pos inner t c e c' :
    nm cs pos t c e c' -> nm cs pos (Star inner :: t) c e c'
| nm_star_some pos inner t c e c' :
    nm cs pos (Plus inner :: t) c e c' -> nm cs pos (Star inner :: t) c e c'
| nm_rep_zero pos inner t c e c' :
    nm cs pos t c e c' -> nm cs pos (Rep inner 0 :: t) c e c'
| nm_rep_step pos inner k t c p1 c1 e c' :
    nm cs pos [inner] c p1 c1 -> nm cs p1 (Rep inner k :: t) c1 e c' ->
    nm cs pos (Rep inner (S k) :: t) c e c'
| nm_cap pos id brs b t c e c' :
    In b brs -> nm cs pos (b ++ CapEnd (id - 1) pos :: t) c e c' ->
    nm cs pos (Cap id brs :: t) c e c'
| nm_capend pos slot start t c e c' :
    start <= pos ->
    nm cs pos t (set_slot c slot (slice cs start pos)) e c' ->
    nm cs pos (CapEnd slot start :: t) c e c'
| nm_ref pos n s t c e c' :
    nth_error c (n - 1) = Some (Some s) ->
    firstn (length s) (skipn pos cs) = s -> pos + length s <= length cs ->
    nm cs (pos + length s) t c e c' -> nm cs pos (Ref n :: t) c e c'.

(** "The whole of [s] matches [p]", spec-side. *)
Definition whole_match (s p : list char) : Prop :=
  exists ns st en c', parse p = Done (Ok (ns, st, en)) /\ nm s 0 ns [] (length s) c'.

(** Spec-side: the input [cs] holds [s] starting at offset [pos]. *)
Definition starts_at (cs : list char) (pos : nat) (s : list char) : Prop :=
  exists u v, cs = u ++ s ++ v /\ length u = pos.

(** Whether [is_match] accepts the first match [r] from a start. *)
Definition accepted (end_ : bool) (n : nat) (r : option (nat * captures)) : bool :=
  match r with
  | Some (e, _) => if end_ then Nat.eqb e n else true
  | None => false
  end.


(** ** Shapes of node sequences *)

(** A node as the parser builds it: group ids and back-references are at
    least 1, and no [CapEnd] occurs (only the matcher inserts those). *)
Fixpoint pnode_ok (n : node) : bool :=
  match n with
  | Opt i | Plus i | Star i | Rep i _ => pnode_ok i
  | Cap id brs => negb (Nat.eqb id 0) && forallb (forallb pnode_ok) brs
  | CapEnd _ _ => false
  | Ref k => negb (Nat.eqb k 0)
  | _ => true
  end.

(** A sequence the matcher may run from [pos]: parser nodes and [CapEnd]
    markers whose start is not after [pos]. *)
Definition seq_ok (pos : nat) (ns : list node) : Prop :=
  Forall (fun n => pnode_ok n = true \/
                   exists slot st, n = CapEnd slot st /\ st <= pos) ns.

(** What a call from [pos] may return: no panic, and an end in
    [pos..=len(cs)]. *)
Definition safe (pos : nat) (cs : list char) (r : outcome (option (nat * captures))) : Prop :=
  match r with
  | Panic => False
  | Done (Some (e, _)) => pos <= e <= length cs
  | _ => True
  end.

(** A single-character atom: [Lit], [\d], [\w], [.], or a class. *)
Definition is_single (n : node) : bool :=
  match n with
  | Lit _ | Digit | Word | Any | Pos _ | Neg _ => true
  | _ => false
  end.








(** The last character, if any, is not [x]. *)
Definition last_not (x : char) (a : list char) : bool :=
  match rev a with d :: _ => negb (N.eqb d x) | [] => true end.


(** The nodes [elems] builds from a pattern with no group and no
    back-reference: an atom, possibly quantified. *)
Definition plain_node (n : node) : bool :=
  match n with
  | Opt i | Plus i | Star i | Rep i _ => is_single i
  | _ => is_single n
  end.

(** A node with its group ids and group slots one higher: what [elems]
    builds for the same text when one more group was opened before it. *)
Fixpoint shift (n : node) : node :=
  match n with
  | Opt i => Opt (shift i)
  | Plus i => Plus (shift i)
  | Star i => Star (shift i)
  | Rep i k => Rep (shift i) k
  | Cap id brs => Cap (S id) (map (map shift) brs)
  | CapEnd slot st => CapEnd (S slot) st
  | _ => n
  end.

(** No back-reference anywhere in the node. *)
Fixpoint ref_free (n : node) : bool :=
  match n with
  | Opt i | Plus i | Star i | Rep i _ => ref_free i
  | Cap _ brs => forallb (forallb ref_free) brs
  | Ref _ => false
  | _ => true
  end.

(** [p] read raw, character by character, as the group scanner
    [collect_group] and [branches] read a group body (escapes and classes
    are not recognised there): from depth [d], every [)] closes an
    earlier [(], the depth ends at 0, and every [|] stands at depth 1 or
    more. *)
Fixpoint group_body (p : list char) (d : nat) : bool :=
  match p with
  | [] => Nat.eqb d 0
  | c :: r =>
      if N.eqb c LPAREN then group_body r (S d)
      else if N.eqb c RPAREN then
        match d with O => false | S d' => group_body r d' end
      else if N.eqb c BAR then negb (Nat.eqb d 0) && group_body r d
      else group_body r d
  end.

(** An [elems] result with its groups renumbered by [shift]. *)
Definition eshift (r : outcome (res (list node * list char * nat)))
  : outcome (res (list node * list char * nat)) :=
  match r with
  | Done (Ok (ns, rest, g)) => Done (Ok (map shift ns, rest, S g))
  | _ => r
  end.

(** What may follow a shifted node list in the matcher: nothing, or the
    end of the wrapping group, opened at [p0 <= pos]. *)
Definition xok (X : list node) (pos : nat) : Prop :=
  X = [] \/ exists sl p0, X = [CapEnd sl p0] /\ p0 <= pos.

(** Two match results with the same end (captures aside). *)
Definition rfst (r r' : option (nat * captures)) : Prop :=
  option_map fst r = option_map fst r'.





(** ** Literal patterns and single-character sequences *)

(** A character that [elems] takes as a literal wherever it stands: not
    an escape, a class, a group, [)], [.] or a quantifier. *)
Definition lit_char (c : char) : bool :=
  negb (existsb (N.eqb c) [BSLASH; LBRACK; LPAREN; RPAREN; DOT; PLUS; QMARK; STAR; LBRACE]).

(** Spec-side: the single-character atoms [ns] accept the characters of
    [cs] from offset [j] on, one character each. *)
Fixpoint window (ns : list node) (cs : list char) (j : nat) : bool :=
  match ns with
  | [] => true
  | n :: t =>
      match nth_error cs j with
      | Some x => char_pred n x && window t cs (S j)
      | None => false
      end
  end.

(** ** Group numbers *)

(** The ids of the groups in a node, in the order of their opening
    parentheses. *)
Fixpoint cap_ids (n : node) : list nat :=
  match n with
  | Opt i | Plus i | Star i | Rep i _ => cap_ids i
  | Cap id brs => id :: concat (map (fun b => concat (map cap_ids b)) brs)
  | _ => []
  end.

(** What [elems] returns with group counter [g]: the groups it opens are
    numbered [g+1 .. g'], in order. *)
Definition elems_num (g : nat) (r : outcome (res (list node * list char * nat))) : Prop :=
  match r with
  | Done (Ok (ns, _, g')) => g <= g' /\ concat (map cap_ids ns) = seq (S g) (g' - g)
  | _ => True
  end.

(** ** The command line: [grep_file_with_label], [grep_dir], [main],
    [grep_file] and [cli] (lines 215-218, 360-469) *)

Definition SLASH : char := 47%N.

(** The errors [cli] returns: a pattern error, the flag error of line 431,
    and an I/O error ([fs::read_to_string], [fs::read_dir], a directory
    entry or its file type, reading stdin). *)
Inductive cerr : Type :=
| EPattern (e : perr)
| EFlags
| EIo.

Inductive cres (A : Type) : Type :=
| COk (a : A)
| CErr (e : cerr).
Arguments COk {A} a.
Arguments CErr {A} e.

(** A computation that prints to stdout and returns: the text printed and
    the outcome. *)
Definition io (A : Type) : Type := (list char * outcome (cres A))%type.

Definition ret {A} (a : A) : io A := ([], Done (COk a)).

Definition fail {A} (e : cerr) : io A := ([], Done (CErr e)).

(** The [?] operator: what was printed stays printed. *)
Definition io_bind {A B} (m : io A) (k : A -> io B) : io B :=
  let '(o1, r) := m in
  match r with
  | Done (COk a) => let '(o2, r2) := k a in (o1 ++ o2, r2)
  | Done (CErr e) => (o1, Done (CErr e))
  | Panic => (o1, Panic)
  | NoFuel => (o1, NoFuel)
  end.

(** A call of [grep_content] inside [cli]. *)
Definition lift_grep (x : list char * outcome (res bool)) : io bool :=
  let '(o, r) := x in
  (o, match r with
      | Done (Ok b) => Done (COk b)
      | Done (Err e) => Done (CErr (EPattern e))
      | Panic => Panic
      | NoFuel => NoFuel
      end).

(** The file system below a root of [grep_dir]. [fs::read_dir] lists the
    entries of a directory in the order the OS gives; [DErr] is a failure
    of [read_dir] or of the next entry or its file type. An entry is a
    file, a directory, or neither ([DirEntry::file_type] does not follow
    symbolic links, so a link is neither). A file holds its text, or
    [None] when [fs::read_to_string] fails on it (unreadable, not UTF-8). *)
Inductive fsnode : Type :=
| FileN (content : option (list char))
| DirN (d : dir)
| OtherN
with dir : Type :=
| DEnd
| DErr
| Ent (name : list char) (n : fsnode) (rest : dir).

Scheme dir_mut := Induction for dir Sort Prop
with fsnode_mut := Induction for fsnode Sort Prop.

(** [rel.display()] for a relative path given by its components. *)
Fixpoint join_slash (l : list (list char)) : list char :=
  match l with
  | [] => []
  | [x] => x
  | x :: r => x ++ SLASH :: join_slash r
  end.

(** [args.next().unwrap_or_default()] *)
Definition next_arg (args : list (list char)) : list char * list (list char) :=
  match args with
  | [] => ([], [])
  | a :: r => (a, r)
  end.

Definition exit_code (any : bool) : nat := if any then 0 else 1.

Section Cli.
(** The world the program runs in: the text of stdin ([None] when
    reading it fails), [fs::read_to_string] on a path, and what a path
    names for [Path::is_dir] and [Path::is_file], which follow symbolic
    links ([None] when it is missing, or [OtherN] when it is neither);
    [fuel] bounds the matcher's recursion. *)
Variable stdin : option (list char).
Variable read_file : list char -> option (list char).
Variable lookup : list char -> option fsnode.
Variable fuel : nat.

Definition ism (pattern : list char) (ln : list char) : outcome (res bool) :=
  is_match fuel ln pattern.

(** [grep_file_with_label] (lines 215-218) on the file's contents. *)
Definition grep_file_with_label (content : option (list char)) (pattern label : list char)
  : io bool :=
  match content with
  | None => fail EIo
  | Some c => lift_grep (grep_content (ism pattern) c (Some label))
  end.

(** [walk] (lines 365-387): [rel] is the path of [d] below [base], as its
    components, and [any] is the flag [walk] sets. *)
Fixpoint walk (label_base : list char) (rel : list (list char)) (d : dir)
    (pattern : list char) (any : bool) : io bool :=
  match d with
  | DEnd => ret any
  | DErr => fail EIo
  | Ent name n rest =>
      io_bind
        (match n with
         | DirN sub => walk label_base (rel ++ [name]) sub pattern any
         | FileN content =>
             let r := join_slash (rel ++ [name]) in
             let label := match r with
                          | [] => label_base
                          | _ => label_base ++ SLASH :: r
                          end in
             io_bind (grep_file_with_label content pattern label)
               (fun b => ret (if b then true else any))
         | OtherN => ret any
         end)
        (fun any' => walk label_base rel rest pattern any')
  end.

(** [grep_dir] (lines 360-400). *)
Definition grep_dir (root pattern : list char) : io bool :=
  let label_base := trim_end (fun c => N.eqb c SLASH) root in
  match lookup root with
  | Some (DirN d) => walk label_base [] d pattern false
  | Some (FileN content) =>
      io_bind (grep_file_with_label content pattern label_base)
        (fun b => ret (if b then true else false))
  | _ => ret false
  end.

(** [grep_file] (lines 414-417). *)
Definition grep_file (file pattern : list char) (prefix : bool) : io bool :=
  match read_file file with
  | None => fail EIo
  | Some content =>
      lift_grep (grep_content (ism pattern) content (if prefix then Some file else None))
  end.

(** The loops of lines 441-445 and 459-463. *)
Fixpoint for_roots (roots : list (list char)) (pattern : list char) (any : bool) : io bool :=
  match roots with
  | [] => ret any
  | root :: roots' =>
      io_bind (grep_dir root pattern) (fun b => for_roots roots' pattern (if b then true else any))
  end.

Fixpoint for_files (files : list (list char)) (pattern : list char) (prefix any : bool)
  : io bool :=
  match files with
  | [] => ret any
  | file :: files' =>
      io_bind (grep_file file pattern prefix)
        (fun b => for_files files' pattern prefix (if b then true else any))
  end.

(** [cli] (lines 421-469) on the whole argument list, the program name
    first. *)
Definition cli (args : list (list char)) : io nat :=
  let '(_, args1) := next_arg args in
  let '(head, args2) := next_arg args1 in
  let '(recursive, head, args3) :=
    if list_eqb head (str "-r") then let '(h, a) := next_arg args2 in (true, h, a)
    else (false, head, args2) in
  if negb (list_eqb head (str "-E")) then fail EFlags else
  let '(pattern, rest) := next_arg args3 in
  if recursive then
    match rest with
    | [] => ret 1
    | _ => io_bind (for_roots rest pattern false) (fun any => ret (exit_code any))
    end
  else
    match rest with
    | [] =>
        match stdin with
        | None => fail EIo
        | Some buf =>
            io_bind (lift_grep (grep_content (ism pattern) buf None))
              (fun b => ret (exit_code b))
        end
    | _ =>
        let prefix := 1 <? length rest in
        io_bind (for_files rest pattern prefix false) (fun any => ret (exit_code any))
    end.

(** [main] (lines 403-411): what is printed on stdout, then the exit
    status with the error printed on stderr, if any. *)
Definition main (args : list (list char)) : list char * outcome (nat * option cerr) :=
  let '(out, r) := cli args in
  (out, match r with
        | Done (COk code) => Done (code, None)
        | Done (CErr e) => Done (1, Some e)
        | Panic => Panic
        | NoFuel => NoFuel
        end).
End Cli.

(** ** Spec-side readings of the command line *)

(** The arguments after the program name start with [-E], or with [-r]
    then [-E]. *)
Definition flags_ok (args : list (list char)) : Prop :=
  exists p0 rest, args = p0 :: str "-E" :: rest \/ args = p0 :: str "-r" :: str "-E" :: rest.

(** The directory tree flattened in depth-first order: each file with its
    path below the root, and a failed listing as [IErr]. *)
Inductive item : Type :=
| IFile (rel : list (list char)) (content : option (list char))
| IErr.

Fixpoint dir_items (rel : list (list char)) (d : dir) : list item :=
  match d with
  | DEnd => []
  | DErr => [IErr]
  | Ent name n rest =>
      match n with
      | FileN c => [IFile (rel ++ [name]) c]
      | DirN sub => dir_items (rel ++ [name]) sub
      | OtherN => []
      end ++ dir_items rel rest
  end.

(** The label of the file at [rel] below a root. *)
Definition file_label (label_base : list char) (rel : list (list char)) : list char :=
  match join_slash rel with
  | [] => label_base
  | r => label_base ++ SLASH :: r
  end.

(** The files of a flattened tree searched one after the other, stopping
    at the first error. *)
Fixpoint run_items (fuel : nat) (label_base : list char) (items : list item)
    (pattern : list char) (any : bool) : io bool :=
  match items with
  | [] => ret any
  | IErr :: _ => fail EIo
  | IFile rel c :: items' =>
      io_bind (grep_file_with_label fuel c pattern (file_label label_base rel))
        (fun b => run_items fuel label_base items' pattern (if b then true else any))
  end.

(** Alternatives joined back with [|]. *)
Fixpoint join_bar (l : list (list char)) : list char :=
  match l with
  | [] => []
  | [x] => x
  | x :: r => x ++ BAR :: join_bar r
  end.

(** A search that returns [b] after printing [o]: [b] is [any] or whether
    it printed anything. *)
Definition printed_iff (any : bool) (m : io bool) : Prop :=
  match m with
  | (o, Done (COk b)) => (b = true <-> any = true \/ o <> [])
  | _ => True
  end.

(** The decimal digits of [k], most significant first: the text a user
    writes for a repetition count. *)
Fixpoint dec_aux (f : nat) (k : N) (acc : list char) : list char :=
  match f with
  | O => acc
  | S f' =>
      let acc' := (48 + k mod 10)%N :: acc in
      if (k <? 10)%N then acc' else dec_aux f' (k / 10) acc'
  end.

Definition dec (k : N) : list char := dec_aux (S (N.to_nat (N.size k))) k [].

(** * Properties *)

(** ** Fuel: a result computed with some fuel is the Rust result *)

Definition le_out {A} (r1 r2 : outcome A) : Prop := r1 = NoFuel \/ r1 = r2.

Lemma le_out_refl {A} (r : outcome A) : le_out r r.
Proof. right; reflexivity. Qed.

Lemma le_out_nofuel {A} (r : outcome A) : le_out NoFuel r.
Proof. left; reflexivity. Qed.

Lemma le_out_bind {A B} (m m' : outcome A) (k k' : A -> outcome B) :
  le_out m m' -> (forall a, le_out (k a) (k' a)) ->
  le_out (obind m k) (obind m' k').
Proof.
  intros [-> | ->] Hk; [left; reflexivity|].
  destruct m'; simpl; [apply Hk | right | left]; reflexivity.
Qed.

Lemma le_out_eq {A} (r r' : outcome A) : le_out r r' -> r <> NoFuel -> r' = r.
Proof. intros [-> | ->] H; [congruence | reflexivity]. Qed.

Ltac mono_solve IH :=
  repeat first
    [ apply le_out_refl
    | apply le_out_bind;
        [ first [ solve [apply (proj1 IH); lia] | solve [apply (proj2 IH); lia] ]
        | intros [[? ?]|]; cbv beta iota ]
    | solve [apply (proj1 IH); lia]
    | solve [apply (proj2 IH); lia]
    | match goal with
      | |- le_out (if ?b then _ else _) (if ?b then _ else _) => destruct b
      | |- le_out (match ?x with _ => _ end) (match ?x with _ => _ end) =>
          destruct x
      end ].

Lemma match_from_mono_le : forall f,
  (forall f' pos ns cs c, f <= f' ->
     le_out (match_from f pos ns cs c) (match_from f' pos ns cs c)) /\
  (forall f' pos inner rest cs c, f <= f' ->
     le_out (more f pos inner rest cs c) (more f' pos inner rest cs c)).
Proof.
  induction f as [|f IH].
  - split; intros; apply le_out_nofuel.
  - split.
    + intros [|f'] pos ns cs c Hle; [lia|].
      destruct ns as [|h t]; [apply le_out_refl|].
      destruct h; cbn [match_from]; try (solve [mono_solve IH]).
      * (* Rep *)
        revert pos c; induction count as [|k IHk]; intros p c0;
          [solve [mono_solve IH]|].
        apply le_out_bind; [apply (proj1 IH); lia|].
        intros [[np nc]|]; [apply IHk | apply le_out_refl].
      * (* Cap *)
        destruct (Nat.eqb id 0); [apply le_out_refl|].
        induction brs as [|b bs IHb]; [apply le_out_refl|].
        apply le_out_bind; [apply (proj1 IH); lia|].
        intros [[e c1]|]; [apply le_out_refl | apply IHb].
    + intros [|f'] pos inner rest cs c Hle; [lia|].
      cbn [more]. mono_solve IH.
Qed.

Lemma match_from_mono : forall f f' pos ns cs c,
  f <= f' -> match_from f pos ns cs c <> NoFuel ->
  match_from f' pos ns cs c = match_from f pos ns cs c.
Proof.
  intros. apply le_out_eq; [apply match_from_mono_le|]; assumption.
Qed.

Lemma more_mono : forall f f' pos inner rest cs c,
  f <= f' -> more f pos inner rest cs c <> NoFuel ->
  more f' pos inner rest cs c = more f pos inner rest cs c.
Proof.
  intros. apply le_out_eq; [apply match_from_mono_le|]; assumption.
Qed.

Lemma any_start_mono_le : forall f f' ns cs en n starts, f <= f' ->
  le_out (any_start (fun st => match_from f st ns cs []) en n starts)
         (any_start (fun st => match_from f' st ns cs []) en n starts).
Proof.
  intros f f' ns cs en n starts Hle. induction starts as [|st sts IH]; simpl.
  - apply le_out_refl.
  - apply le_out_bind; [apply match_from_mono_le; assumption|].
    intros [[e c]|]; [destruct (if en then Nat.eqb e n else true)|];
      [apply le_out_refl | apply IH | apply IH].
Qed.

Lemma is_match_mono : forall f f' input pat,
  f <= f' -> is_match f input pat <> NoFuel ->
  is_match f' input pat = is_match f input pat.
Proof.
  intros f f' input pat Hle H. apply le_out_eq; [|exact H].
  unfold is_match, rbind. apply le_out_bind; [apply le_out_refl|].
  intros [[[ns st] en]|e]; [|apply le_out_refl].
  apply le_out_bind; [apply any_start_mono_le; exact Hle|].
  intros b; apply le_out_refl.
Qed.

(** ** Zero-width repetition *)

Section ZeroWidth.

(** The node of the group [(a* )]. *)
Let grp := Cap 1 [[Star (Lit (ch "a"))]].

Lemma grp_on_empty : forall f c,
  match_from f 0 [grp] [] c = NoFuel \/
  match_from f 0 [grp] [] c = Done (Some (0, set_slot c 0 [])).
Proof.
  intros f c. destruct f as [|[|[|[|f]]]]; simpl; auto.
Qed.

Lemma more_grp_diverges : forall f c, more f 0 grp [] [] c = NoFuel.
Proof.
  induction f as [|f IH]; intros c; [reflexivity|].
  cbn [more]. destruct (grp_on_empty f c) as [-> | ->]; simpl; [reflexivity|].
  rewrite IH; reflexivity.
Qed.

Lemma plus_grp_diverges : forall f, match_from f 0 [Plus grp] [] [] = NoFuel.
Proof.
  intros [|f]; [reflexivity|]. cbn [match_from]. apply more_grp_diverges.
Qed.

End ZeroWidth.

Lemma parse_plus_grp :
  parse (str "(a*)+") = Done (Ok ([Plus (Cap 1 [[Star (Lit (ch "a"))]])], false, false)).
Proof. vm_compute. reflexivity. Qed.

(** No fuel is enough for [is_match("", "(a* )+")]: the call does not return. *)
Lemma is_match_plus_grp_diverges : forall f,
  is_match f (str "") (str "(a*)+") = NoFuel.
Proof.
  intros f. unfold is_match. rewrite parse_plus_grp. simpl.
  rewrite plus_grp_diverges. reflexivity.
Qed.

(** ** C1 *)

(** C1 (code_bug). The pattern [(a], a group with no closing [)], is not
    rejected: [parse] returns the group [Cap 1 [[Lit 'a']]], and
    [is_match("a", "(a")] is true, where the spec lists an unclosed group
    among the parse errors. *)
Theorem parse_unclosed_group_accepted :
  parse (str "(a") = Done (Ok ([Cap 1 [[Lit (ch "a")]]], false, false)) /\
  is_match 10 (str "a") (str "(a") = Done (Ok true).
Proof. split; vm_compute; reflexivity. Qed.

(** ** C2 *)


(** ** C7 *)

(** C7. Greediness of [Plus]: [is_match("aaaa", "a+a")] is true and
    [is_match("a", "a+a")] is false (for all fuel from 20 on, so these are
    the values the Rust call returns). *)
Theorem plus_greedy_examples : forall f, 20 <= f ->
  is_match f (str "aaaa") (str "a+a") = Done (Ok true) /\
  is_match f (str "a") (str "a+a") = Done (Ok false).
Proof.
  intros f Hf. split.
  - rewrite (is_match_mono 20 f) by (assumption || (vm_compute; discriminate)).
    vm_compute; reflexivity.
  - rewrite (is_match_mono 20 f) by (assumption || (vm_compute; discriminate)).
    vm_compute; reflexivity.
Qed.

Lemma plus_greedy_examples_witness :
  20 <= 20 /\
  is_match 20 (str "aaaa") (str "a+a") = Done (Ok true) /\
  is_match 20 (str "a") (str "a+a") = Done (Ok false).
Proof. split; [lia | apply (plus_greedy_examples 20); lia]. Defined.

(** ** C3 *)

Lemma any_start_true : forall m en n starts,
  any_start m en n starts = Done true <->
  exists pre k post e c, starts = pre ++ k :: post /\
    Forall (fun j => exists r, m j = Done r /\ accepted en n r = false) pre /\
    m k = Done (Some (e, c)) /\ (en = true -> e = n).
Proof.
  intros m en n starts. induction starts as [|st sts IH]; simpl.
  - split; [discriminate|]. intros (pre & k & post & _ & _ & Heq & _ & _ & _).
    destruct pre; discriminate.
  - split.
    + intros H. destruct (m st) as [r| |] eqn:Em; try discriminate. simpl in H.
      destruct r as [[e c]|] eqn:Er.
      * destruct (if en then Nat.eqb e n else true) eqn:Ea.
        -- exists [], st, sts, e, c. repeat split; auto.
           intros ->. apply Nat.eqb_eq; exact Ea.
        -- apply IH in H. destruct H as (pre & k & post & e' & c' & -> & Hf & Hk & He).
           exists (st :: pre), k, post, e', c'. repeat split; auto.
           constructor; auto. exists (Some (e, c)). split; [exact Em | exact Ea].
      * apply IH in H. destruct H as (pre & k & post & e' & c' & -> & Hf & Hk & He).
        exists (st :: pre), k, post, e', c'. repeat split; auto.
        constructor; auto. exists None. split; [exact Em | reflexivity].
    + intros (pre & k & post & e & c & Heq & Hf & Hk & He).
      destruct pre as [|j pre]; simpl in Heq; injection Heq as <- Heq.
      * rewrite Hk. simpl. destruct en; [rewrite He, Nat.eqb_refl by reflexivity|]; reflexivity.
      * inversion Hf as [|? ? [r [Hj Ha]] Hf']; subst.
        rewrite Hj. simpl.
        assert (Hs : any_start m en n (pre ++ k :: post) = Done true)
          by (apply IH; exists pre, k, post, e, c; auto).
        destruct r as [[e' c']|]; simpl in Ha; [rewrite Ha|]; exact Hs.
Qed.

(** C3 (corrected). With [p] not ending in a backslash, [is_match(s, "^" + p
    + "$")] parses [p] alone (no further anchor stripping) and is true iff
    the engine's first match of [p] from offset 0 (greedy, alternatives in
    source order) ends at [len(s)]. In general [is_match(s, pat)] is true
    iff some start offset, from [{0}] when start-anchored and from
    [0..=len(s)] otherwise, taken in ascending order after starts whose
    first match was rejected, gives a first match ending at [e] with
    [e = len(s)] when end-anchored. *)
Theorem is_match_anchored_first_match :
  (forall f s p, (forall q, p <> q ++ [BSLASH]) ->
    is_match f s ([CARET] ++ p ++ [DOLLAR]) =
    rbind (elems (S (length p)) p 0) (fun '(ns, _, _) =>
    obind (match_from f 0 ns s []) (fun r => Done (Ok (accepted true (length s) r))))) /\
  (forall f s pat, is_match f s pat = Done (Ok true) <->
    exists ns st en, parse pat = Done (Ok (ns, st, en)) /\
    exists pre k post e c,
      (if st then [0] else seq 0 (S (length s))) = pre ++ k :: post /\
      Forall (fun j => exists r, match_from f j ns s [] = Done r /\
                                 accepted en (length s) r = false) pre /\
      match_from f k ns s [] = Done (Some (e, c)) /\ (en = true -> e = length s)).
Proof.
  split.
  - intros f s p Hp. unfold is_match, parse. cbn -[elems end_anchor removelast].
    assert (Ha : end_anchor (p ++ [DOLLAR]) = true).
    { unfold end_anchor. rewrite rev_app_distr. simpl.
      destruct (rev p) as [|b r] eqn:Er; [reflexivity|].
      destruct (N.eqb b BSLASH) eqn:Eb; [|reflexivity].
      apply N.eqb_eq in Eb; subst b. exfalso. apply (Hp (rev r)).
      rewrite <- (rev_involutive p), Er. reflexivity. }
    rewrite Ha, removelast_last.
    destruct (elems (S (length p)) p 0) as [[[[ns rest] g]|e]| |]; simpl; try reflexivity.
    destruct (match_from f 0 ns s []) as [[[e c]|]| |]; simpl; try reflexivity.
    destruct (Nat.eqb e (length s)); reflexivity.
  - intros f s pat. unfold is_match. split.
    + destruct (parse pat) as [[[[ns st] en]|e]| |]; cbn -[any_start seq];
        try discriminate.
      intros H. exists ns, st, en. split; [reflexivity|].
      destruct (any_start _ _ _ _) as [b| |] eqn:E; simpl in H; try discriminate.
      injection H as ->. apply any_start_true in E. exact E.
    + intros (ns & st & en & Hp & Hx). rewrite Hp. cbn -[any_start seq].
      apply (proj2 (any_start_true (fun st => match_from f st ns s []) en (length s) _)) in Hx.
      rewrite Hx. reflexivity.
Qed.

Lemma is_match_anchored_first_match_witness :
  (forall q, str "a" <> q ++ [BSLASH]) /\
  is_match 5 (str "a") ([CARET] ++ str "a" ++ [DOLLAR]) =
    rbind (elems (S (length (str "a"))) (str "a") 0) (fun '(ns, _, _) =>
    obind (match_from 5 0 ns (str "a") []) (fun r => Done (Ok (accepted true 1 r)))).
Proof.
  assert (Hq : forall q, str "a" <> q ++ [BSLASH]).
  { intros [|x [|y q]] H; simpl in H; discriminate. }
  split; [exact Hq | apply (proj1 is_match_anchored_first_match 5 (str "a") (str "a")); exact Hq].
Defined.

(** C3 (counterexample). The double anchor does not decide whether the
    whole input matches: ["ab"] matches [(a|ab)] through its second
    alternative, but [is_match("ab", "^(a|ab)$")] is false, because the
    first alternative already succeeds (ending at 1) and the end anchor
    is only checked on that first result. *)
Lemma double_anchor_whole_match_cex :
  ~ (forall s p, (exists f, is_match f s (str "^" ++ p ++ str "$") = Done (Ok true))
                 <-> whole_match s p).
Proof.
  intros H.
  destruct (proj2 (H (str "ab") (str "(a|ab)"))) as [f Hf].
  - exists [Cap 1 [[Lit (ch "a")]; [Lit (ch "a"); Lit (ch "b")]]], false, false.
    eexists. split; [vm_compute; reflexivity|].
    apply (nm_cap _ _ _ _ [Lit (ch "a"); Lit (ch "b")]); [right; left; reflexivity|].
    simpl. eapply nm_char; [reflexivity | reflexivity|].
    eapply nm_char; [reflexivity | reflexivity|].
    apply nm_capend; [lia|]. apply nm_nil.
  - assert (H20 : is_match 20 (str "ab") (str "^" ++ str "(a|ab)" ++ str "$")
                  = Done (Ok false)) by (vm_compute; reflexivity).
    destruct (Nat.le_ge_cases f 20) as [Hle | Hge].
    + rewrite (is_match_mono f 20) in H20 by (assumption || congruence). congruence.
    + rewrite (is_match_mono 20 f) in Hf by (assumption || congruence). congruence.
Qed.

(** ** C8 *)

(** C8 (counterexample). [p = "\|"] has no unescaped [|] and no
    back-reference. [is_match("|", "\|")] is true, but
    [is_match("|", "(\|)")] is a parse error: [branches] splits the group
    body at the escaped [|], leaving the segment ["\"]. *)
Lemma group_roundtrip_cex :
  is_match 10 (str "|") (str "\|") = Done (Ok true) /\
  is_match 10 (str "|") (str "(\|)") = Done (Err InvalidEscape).
Proof. split; vm_compute; reflexivity. Qed.

(** ** C9 *)

(** C9 (counterexample). A final segment without [\n] gets one added:
    scanning ["a"] with the pattern [a] and the label [f] prints
    ["f:a\n"]. *)
Lemma scanner_adds_newline_cex :
  grep_content (fun l => is_match 10 l (str "a")) (str "a") (Some (str "f"))
  = (str "f:a" ++ [NL], Done (Ok true)).
Proof. vm_compute. reflexivity. Qed.

(** ** C10 *)


(** ** C5 *)

(** C5. Captures do not leak out of a failed alternative. When the first
    alternative [b] of a group (with its [CapEnd] and the tail) fails, the
    group continues exactly as the group without [b] entered with the same
    capture table [c]. When the taken branch of an optional fails (the inner
    node fails, or it succeeds and the tail fails from there), the tail is
    matched from the position and the capture table the optional was
    entered with. *)
Theorem capture_isolation :
  (forall f pos id b bs tail cs c, id <> 0 ->
     match_from f pos (b ++ CapEnd (id - 1) pos :: tail) cs c = Done None ->
     match_from (S f) pos (Cap id (b :: bs) :: tail) cs c =
     match_from (S f) pos (Cap id bs :: tail) cs c) /\
  (forall f pos inner tail cs c,
     (match_from f pos [inner] cs c = Done None \/
      exists p1 c1, match_from f pos [inner] cs c = Done (Some (p1, c1)) /\
                    match_from f p1 tail cs c1 = Done None) ->
     match_from (S f) pos (Opt inner :: tail) cs c = match_from f pos tail cs c).
Proof.
  split.
  - intros f pos id b bs tail cs c Hid Hb. cbn [match_from].
    apply Nat.eqb_neq in Hid. rewrite Hid. rewrite Hb. reflexivity.
  - intros f pos inner tail cs c [H | (p1 & c1 & H1 & H2)]; cbn [match_from].
    + rewrite H. reflexivity.
    + rewrite H1. simpl. rewrite H2. reflexivity.
Qed.

Lemma capture_isolation_witness :
  (* group [((a)x|a\2)] on [aa]: the failed first branch records group 2 *)
  ((1 <> 0 /\
    match_from 10 0 ([Cap 2 [[Lit (ch "a")]]; Lit (ch "x")] ++ CapEnd (1 - 1) 0 :: [])
      (str "aa") [Some (str "z")] = Done None /\
    match_from 11 0 (Cap 1 ([Cap 2 [[Lit (ch "a")]]; Lit (ch "x")]
                            :: [[Lit (ch "a"); Ref 2]]) :: [])
      (str "aa") [Some (str "z")] =
    match_from 11 0 (Cap 1 [[Lit (ch "a"); Ref 2]] :: []) (str "aa") [Some (str "z")]) /\
   match_from 11 0 (Cap 1 [[Lit (ch "a"); Ref 2]] :: []) (str "aa") [Some (str "z")]
     = Done None /\
   match_from 11 0 (Cap 1 [[Lit (ch "a"); Ref 2]] :: []) (str "aa")
     [Some (str "z"); Some (str "a")] <> Done None) /\
  (* [(a)?\1] on [a]: the optional group captures, then the tail fails *)
  ((exists p1 c1,
      match_from 10 0 [Cap 1 [[Lit (ch "a")]]] (str "a") [] = Done (Some (p1, c1)) /\
      match_from 10 p1 [Ref 1] (str "a") c1 = Done None) /\
   match_from 11 0 (Opt (Cap 1 [[Lit (ch "a")]]) :: [Ref 1]) (str "a") [] =
   match_from 10 0 [Ref 1] (str "a") [] /\
   match_from 10 0 [Ref 1] (str "a") [] = Done None /\
   match_from 10 0 [Ref 1] (str "a") [Some (str "a")] <> Done None).
Proof.
  split.
  - refine (conj (conj _ (conj _ _)) (conj _ _));
      [lia | vm_compute; reflexivity | | vm_compute; reflexivity
      | vm_compute; discriminate].
    apply (proj1 capture_isolation); [lia | vm_compute; reflexivity].
  - assert (H : exists p1 c1,
      match_from 10 0 [Cap 1 [[Lit (ch "a")]]] (str "a") [] = Done (Some (p1, c1)) /\
      match_from 10 p1 [Ref 1] (str "a") c1 = Done None)
      by (exists 1, [Some (str "a")]; split; vm_compute; reflexivity).
    refine (conj H (conj _ (conj _ _)));
      [| vm_compute; reflexivity | vm_compute; discriminate].
    apply (proj2 capture_isolation). right. exact H.
Defined.

(** ** C6 *)

Lemma list_eqb_true : forall a b, list_eqb a b = true <-> a = b.
Proof.
  induction a as [|x a IH]; intros [|y b]; simpl; split; intros H;
    try discriminate; try reflexivity.
  - apply andb_prop in H as [Hx Hr]. apply N.eqb_eq in Hx. apply IH in Hr. congruence.
  - injection H as -> ->. rewrite N.eqb_refl. simpl. apply IH. reflexivity.
Qed.

Lemma ref_check_starts_at : forall cs pos s,
  (pos + length s <=? length cs) && list_eqb (slice cs pos (pos + length s)) s = true
  <-> starts_at cs pos s.
Proof.
  intros cs pos s. unfold slice. replace (pos + length s - pos) with (length s) by lia.
  rewrite andb_true_iff, Nat.leb_le, list_eqb_true. split.
  - intros [Hl Hs]. exists (firstn pos cs), (skipn (length s) (skipn pos cs)).
    split.
    + transitivity (firstn pos cs ++ skipn pos cs); [symmetry; apply firstn_skipn|].
      f_equal. rewrite <- (firstn_skipn (length s) (skipn pos cs)) at 1.
      rewrite Hs. reflexivity.
    + rewrite length_firstn. lia.
  - intros (u & v & -> & <-). rewrite skipn_app, Nat.sub_diag, skipn_all. simpl.
    rewrite firstn_app, Nat.sub_diag, firstn_all. simpl. rewrite app_nil_r.
    split; [rewrite !length_app; lia | reflexivity].
Qed.

(** C6. [BackRef(n)] (with [n >= 1], as the parser produces) fails when
    slot [n - 1] is absent; with [s] in the slot it fails unless the input
    holds [s] at the current position, and then it continues with the tail
    from [pos + len(s)] with the capture table unchanged. *)
Theorem backref_semantics : forall f pos n tail cs c, n <> 0 ->
  (match nth_error c (n - 1) with Some (Some _) => False | _ => True end ->
     match_from (S f) pos (Ref n :: tail) cs c = Done None) /\
  (forall s, nth_error c (n - 1) = Some (Some s) ->
     (~ starts_at cs pos s -> match_from (S f) pos (Ref n :: tail) cs c = Done None) /\
     (starts_at cs pos s ->
        match_from (S f) pos (Ref n :: tail) cs c = match_from f (pos + length s) tail cs c)).
Proof.
  intros f pos n tail cs c Hn. cbn [match_from].
  apply Nat.eqb_neq in Hn. rewrite Hn. split.
  - destruct (nth_error c (n - 1)) as [[s|]|]; tauto.
  - intros s Hs. rewrite Hs. split.
    + intros Hno. destruct (_ && _) eqn:E; [|reflexivity].
      exfalso. apply Hno, ref_check_starts_at, E.
    + intros Hyes. apply ref_check_starts_at in Hyes. rewrite Hyes. reflexivity.
Qed.

Lemma backref_semantics_witness :
  1 <> 0 /\
  (match nth_error [Some (str "a")] (1 - 1) with Some (Some _) => False | _ => True end ->
     match_from 4 0 [Ref 1] (str "aa") [Some (str "a")] = Done None) /\
  (forall s, nth_error [Some (str "a")] (1 - 1) = Some (Some s) ->
     (~ starts_at (str "aa") 0 s ->
        match_from 4 0 [Ref 1] (str "aa") [Some (str "a")] = Done None) /\
     (starts_at (str "aa") 0 s ->
        match_from 4 0 [Ref 1] (str "aa") [Some (str "a")] =
        match_from 3 (0 + length s) [] (str "aa") [Some (str "a")])).
Proof. split; [lia | apply (backref_semantics 3 0 1 [] (str "aa")); lia]. Defined.

(** ** C9 *)

Lemma split_inclusive_concat : forall cs cur,
  concat (split_inclusive cs cur) = cur ++ cs.
Proof.
  induction cs as [|x cs IH]; intros cur; simpl.
  - destruct cur; simpl; [reflexivity | rewrite app_nil_r; reflexivity].
  - destruct (N.eqb x NL); simpl; rewrite IH; rewrite <- app_assoc; reflexivity.
Qed.

Lemma split_inclusive_nl : forall cs cur,
  Forall (fun seg => ends_with_nl seg = true) (removelast (split_inclusive cs cur)).
Proof.
  induction cs as [|x cs IH]; intros cur; simpl.
  - destruct cur; constructor.
  - destruct (N.eqb x NL) eqn:Ex; [|apply IH].
    destruct (split_inclusive cs []) as [|l l0] eqn:E; [constructor|].
    change (removelast ((cur ++ [x]) :: l :: l0))
      with ((cur ++ [x]) :: removelast (l :: l0)).
    constructor; [|rewrite <- E; apply IH].
    unfold ends_with_nl. rewrite rev_app_distr. simpl. exact Ex.
Qed.

Section ScanTotal.
Variable m : list char -> bool.
Let line seg := trim_end (fun c => N.eqb c NL || N.eqb c CR) seg.

Lemma scan_total : forall segs prefix out any consumed,
  scan (fun l => Done (Ok (m l))) segs prefix out any consumed =
  (out ++ concat (map (print_with_prefix prefix) (filter (fun seg => m (line seg)) segs)),
   Done (Ok (any || existsb (fun seg => m (line seg)) segs,
             consumed + length (concat segs)))).
Proof.
  induction segs as [|seg segs IH]; intros prefix out any consumed; simpl.
  - rewrite app_nil_r, orb_false_r, Nat.add_0_r. reflexivity.
  - fold (line seg). destruct (m (line seg)); rewrite IH; simpl.
    + rewrite app_assoc, orb_true_r, length_app, Nat.add_assoc. reflexivity.
    + rewrite length_app, Nat.add_assoc. reflexivity.
Qed.
End ScanTotal.

(** C9 (corrected). The scanner emits the matching segments of the
    content, in order; a segment ending in [\n] is emitted verbatim, after
    [label:] when a label is given, and a segment without [\n] (only the
    final one can lack it) is emitted with a [\n] added. The segments
    concatenate back to the content, and the result is whether any line
    matched. *)
Theorem scanner_output : forall (m : list char -> bool) content prefix,
  let segs := split_inclusive content [] in
  let line seg := trim_end (fun c => N.eqb c NL || N.eqb c CR) seg in
  let lab := match prefix with Some p => p ++ [COLON] | None => [] end in
  concat segs = content /\
  Forall (fun seg => ends_with_nl seg = true) (removelast segs) /\
  grep_content (fun l => Done (Ok (m l))) content prefix =
  (concat (map (fun seg => lab ++ seg ++ (if ends_with_nl seg then [] else [NL]))
               (filter (fun seg => m (line seg)) segs)),
   Done (Ok (existsb (fun seg => m (line seg)) segs))).
Proof.
  intros m content prefix segs line lab.
  assert (Hc : concat segs = content) by apply split_inclusive_concat.
  split; [exact Hc|]. split; [apply split_inclusive_nl|].
  unfold grep_content. fold segs. rewrite scan_total. simpl.
  rewrite Hc. rewrite Nat.ltb_irrefl.
  f_equal. f_equal. apply map_ext. intros seg. unfold lab, print_with_prefix.
  destruct prefix as [p|]; destruct (ends_with_nl seg); rewrite ?app_nil_r, ?app_assoc;
    reflexivity.
Qed.

(** ** C4 *)

Lemma seq_ok_mono : forall pos pos' ns, pos <= pos' -> seq_ok pos ns -> seq_ok pos' ns.
Proof.
  intros pos pos' ns Hle H. unfold seq_ok in *. eapply Forall_impl; [|exact H].
  intros n [Hn | (slot & st & -> & Hst)]; [left; exact Hn | right; exists slot, st; split; [reflexivity | lia]].
Qed.

Lemma seq_ok_cons : forall pos n ns, seq_ok pos (n :: ns) ->
  (pnode_ok n = true \/ exists slot st, n = CapEnd slot st /\ st <= pos) /\ seq_ok pos ns.
Proof. intros pos n ns H. inversion H; subst; auto. Qed.

Lemma seq_ok_single : forall pos n, pnode_ok n = true -> seq_ok pos [n].
Proof. intros. constructor; [left; assumption | constructor]. Qed.

Lemma safe_weaken : forall pos p cs r, pos <= p -> safe p cs r -> safe pos cs r.
Proof. intros pos p cs [[[e c]|]| |] Hle H; simpl in *; auto; lia. Qed.

Lemma nth_error_lt : forall (cs : list char) pos y, nth_error cs pos = Some y -> pos < length cs.
Proof. intros cs pos y H. apply nth_error_Some. congruence. Qed.

Ltac safe_tail IH :=
  eapply safe_weaken; [|apply (proj1 IH)]; [| |eapply seq_ok_mono; [|eassumption]];
  try lia.

Lemma match_from_safe : forall f,
  (forall pos ns cs c, pos <= length cs -> seq_ok pos ns ->
     safe pos cs (match_from f pos ns cs c)) /\
  (forall pos inner rest cs c, pos <= length cs -> pnode_ok inner = true ->
     seq_ok pos rest -> safe pos cs (more f pos inner rest cs c)).
Proof.
  induction f as [|f IH]; [split; intros; exact I|]. split.
  - intros pos [|h t] cs c Hpos Hok; [simpl; lia|].
    apply seq_ok_cons in Hok as [Hh Ht].
    destruct Hh as [Hh | (slot & st & -> & Hst)].
    2:{ cbn [match_from]. assert (E : (st <=? pos) && (pos <=? length cs) = true)
          by (apply andb_true_iff; split; apply Nat.leb_le; lia).
        rewrite E. apply (proj1 IH); assumption. }
    destruct h; cbn [match_from]; simpl in Hh.
    + destruct (nth_error cs pos) as [y|] eqn:Ey; [|exact I].
      apply nth_error_lt in Ey. destruct (N.eqb y c0); [safe_tail IH | exact I].
    + destruct (nth_error cs pos) as [y|] eqn:Ey; [|exact I].
      apply nth_error_lt in Ey. destruct (is_ascii_digit y); [safe_tail IH | exact I].
    + destruct (nth_error cs pos) as [y|] eqn:Ey; [|exact I].
      apply nth_error_lt in Ey. destruct (_ || _); [safe_tail IH | exact I].
    + destruct (nth_error cs pos) as [y|] eqn:Ey; [|exact I].
      apply nth_error_lt in Ey. safe_tail IH.
    + destruct (nth_error cs pos) as [y|] eqn:Ey; [|exact I].
      apply nth_error_lt in Ey. destruct (contains s y); [safe_tail IH | exact I].
    + destruct (nth_error cs pos) as [y|] eqn:Ey; [|exact I].
      apply nth_error_lt in Ey. destruct (negb _); [safe_tail IH | exact I].
    + (* Opt *)
      pose proof (proj1 IH pos [h] cs c Hpos (seq_ok_single pos h Hh)) as Hi.
      destruct (match_from f pos [h] cs c) as [[[p1 c1]|]| |]; simpl in Hi |- *;
        try contradiction; try exact I.
      * pose proof (proj1 IH p1 t cs c1 ltac:(lia) (seq_ok_mono pos p1 t ltac:(lia) Ht)) as Ht1.
        destruct (match_from f p1 t cs c1) as [[[e c2]|]| |]; simpl in Ht1 |- *;
          try contradiction; try exact I; [lia|].
        apply (proj1 IH); assumption.
      * apply (proj1 IH); assumption.
    + (* Plus *) apply (proj2 IH); assumption.
    + (* Star *)
      pose proof (proj2 IH pos h t cs c Hpos Hh Ht) as Hm.
      destruct (more f pos h t cs c) as [[[e c2]|]| |]; simpl in Hm |- *;
        try contradiction; try exact I; [lia|].
      apply (proj1 IH); assumption.
    + (* Rep *)
      assert (Hrep : forall k p c0, pos <= p <= length cs ->
        safe pos cs ((fix rep (k0 p0 : nat) (c1 : list (option (list char))) :=
           match k0 with
           | 0 => match_from f p0 t cs c1
           | S k' => obind (match_from f p0 [h] cs c1)
                       (fun r => match r with
                                 | Some (np, nc) => rep k' np nc
                                 | None => Done None
                                 end)
           end) k p c0)).
      { induction k as [|k IHk]; intros p c0 Hp.
        - safe_tail IH.
        - pose proof (proj1 IH p [h] cs c0 ltac:(lia) (seq_ok_single p h Hh)) as Hi.
          destruct (match_from f p [h] cs c0) as [[[np nc]|]| |]; simpl in Hi |- *;
            try contradiction; try exact I.
          apply IHk. lia. }
      apply Hrep. lia.
    + (* Cap *)
      apply andb_true_iff in Hh as [Hid Hbrs]. apply negb_true_iff in Hid. rewrite Hid.
      induction brs as [|b bs IHb]; [exact I|].
      simpl in Hbrs. apply andb_true_iff in Hbrs as [Hb Hbs].
      assert (Hseq : seq_ok pos (b ++ CapEnd (id - 1) pos :: t)).
      { apply Forall_app. split.
        - rewrite forallb_forall in Hb. apply Forall_forall. intros x Hx. left. apply Hb, Hx.
        - constructor; [right; exists (id - 1), pos; split; [reflexivity | lia] | exact Ht]. }
      pose proof (proj1 IH pos _ cs c Hpos Hseq) as Hr.
      destruct (match_from f pos (b ++ CapEnd (id - 1) pos :: t) cs c) as [[[e c2]|]| |];
        simpl in Hr |- *; try contradiction; try exact I; [lia|]. apply IHb, Hbs.
    + (* CapEnd *) discriminate.
    + (* Ref *)
      apply negb_true_iff in Hh. rewrite Hh.
      destruct (nth_error c (n - 1)) as [[s|]|]; try exact I.
      destruct (_ && _) eqn:E; [|exact I].
      apply andb_true_iff in E as [E _]. apply Nat.leb_le in E. safe_tail IH.
  - intros pos inner rest cs c Hpos Hi Hr. cbn [more].
    pose proof (proj1 IH pos [inner] cs c Hpos (seq_ok_single pos inner Hi)) as H1.
    destruct (match_from f pos [inner] cs c) as [[[p1 c1]|]| |]; simpl in H1 |- *;
      try contradiction; try exact I.
    pose proof (proj2 IH p1 inner rest cs c1 ltac:(lia) Hi (seq_ok_mono pos p1 rest ltac:(lia) Hr)) as H2.
    destruct (more f p1 inner rest cs c1) as [[[e c2]|]| |]; simpl in H2 |- *;
      try contradiction; try exact I; [lia|].
    safe_tail IH.
Qed.

(** The parser never panics, and every node it builds is a parser node. *)
Definition elems_post (r : outcome (res (list node * list char * nat))) : Prop :=
  match r with
  | Panic => False
  | Done (Ok (ns, _, _)) => Forall (fun n => pnode_ok n = true) ns
  | _ => True
  end.

Lemma branches_post : forall el s g,
  (forall seg g, elems_post (el seg g)) ->
  match branches el s g with
  | Panic => False
  | Done (Ok (brs, _)) => Forall (Forall (fun n => pnode_ok n = true)) brs
  | _ => True
  end.
Proof.
  intros el s g Hel. unfold branches. generalize (split_bar s 0 []) as segs.
  intros segs. revert g. induction segs as [|seg segs IH]; intros g; simpl; [constructor|].
  specialize (Hel seg g). destruct (el seg g) as [[[[ns r] g1]|e]| |]; simpl in *; auto.
  specialize (IH g1). destruct (_ segs g1) as [[[out g2]|e]| |]; simpl in *; auto.
Qed.

Lemma escape_ok : forall e, pnode_ok (escape e) = true.
Proof.
  intros e. unfold escape.
  destruct (N.eqb e (ch "d")); [reflexivity|]. destruct (N.eqb e (ch "w")); [reflexivity|].
  destruct ((49 <=? e)%N && (e <=? 57)%N) eqn:E; [|reflexivity].
  apply andb_true_iff in E as [E _]. apply N.leb_le in E. simpl.
  apply negb_true_iff, Nat.eqb_neq. lia.
Qed.

Lemma quant_ok : forall n cs n' cs', quant n cs = Ok (n', cs') ->
  pnode_ok n = true -> pnode_ok n' = true.
Proof.
  intros n cs n' cs' Hq Hn. unfold quant in Hq. destruct cs as [|q r].
  - injection Hq as <- _. exact Hn.
  - destruct (N.eqb q PLUS); [injection Hq as <- _; exact Hn|].
    destruct (N.eqb q QMARK); [injection Hq as <- _; exact Hn|].
    destruct (N.eqb q STAR); [injection Hq as <- _; exact Hn|].
    destruct (N.eqb q LBRACE); [|injection Hq as <- _; exact Hn].
    destruct (span_digits r) as [ds [|x rest']]; [discriminate|].
    destruct (N.eqb x RBRACE); [|discriminate].
    destruct (parse_usize ds); [|discriminate]. injection Hq as <- _. exact Hn.
Qed.

Lemma atom_post : forall el c cs1 g,
  (forall seg g, elems_post (el seg g)) ->
  match atom el c cs1 g with
  | Panic => False
  | Done (Ok (n, _, _)) => pnode_ok n = true
  | _ => True
  end.
Proof.
  intros el c cs1 g Hel. unfold atom.
  destruct (N.eqb c BSLASH).
  { destruct cs1; [exact I | apply escape_ok]. }
  destruct (N.eqb c LBRACK).
  { destruct (class cs1) as [[n cs2]|e] eqn:E; [|exact I]. simpl.
    revert E. unfold class.
    destruct cs1 as [|c1 r]; [|destruct (N.eqb c1 CARET)]; cbv beta iota zeta;
      destruct (class_members _) as [m [|x rest']]; intros E; try discriminate;
      injection E as <- _; reflexivity. }
  destruct (N.eqb c LPAREN).
  { destruct (collect_group cs1 0) as [buf cs2].
    pose proof (branches_post el buf (S g) Hel) as Hb.
    destruct (branches el buf (S g)) as [[[brs g']|e]| |]; simpl in *; auto.
    try (apply andb_true_iff; split; [reflexivity|]).
    apply forallb_forall. intros b Hin. apply forallb_forall. intros x Hx.
    rewrite Forall_forall in Hb. specialize (Hb b Hin). rewrite Forall_forall in Hb.
    apply Hb, Hx. }
  destruct (N.eqb c DOT); reflexivity.
Qed.

Lemma elems_safe : forall f cs g, elems_post (elems f cs g).
Proof.
  induction f as [|f IH]; intros cs g; [exact I|].
  destruct cs as [|c cs1]; simpl; [constructor|].
  destruct (N.eqb c RPAREN); [constructor|].
  pose proof (atom_post (elems f) c cs1 g IH) as Ha.
  destruct (atom (elems f) c cs1 g) as [[[[n cs2] g1]|e]| |]; simpl in *; auto.
  destruct (quant n cs2) as [[n' cs3]|e] eqn:Eq; simpl; [|exact I].
  pose proof (IH cs3 g1) as Hr.
  destruct (elems f cs3 g1) as [[[[out rest] g']|e]| |]; simpl in *; auto.
  constructor; [eapply quant_ok; eassumption | exact Hr].
Qed.

Lemma parse_post : forall pat,
  match parse pat with
  | Panic => False
  | Done (Ok (ns, _, _)) => Forall (fun n => pnode_ok n = true) ns
  | _ => True
  end.
Proof.
  intros pat. unfold parse.
  assert (G : forall (start end_ : bool) cs,
    match rbind (elems (S (length cs)) cs 0) (fun '(ns, _, _) => Done (Ok (ns, start, end_))) with
    | Panic => False
    | Done (Ok (ns, _, _)) => Forall (fun n => pnode_ok n = true) ns
    | _ => True
    end).
  { intros start end_ cs. pose proof (elems_safe (S (length cs)) cs 0) as H.
    destruct (elems (S (length cs)) cs 0) as [[[[ns r] g]|e]| |]; simpl in *; auto. }
  destruct pat as [|c r]; [|destruct (N.eqb c CARET)]; cbv beta iota zeta;
    match goal with |- context [if end_anchor ?p then _ else _] => destruct (end_anchor p) end;
    apply G.
Qed.

Lemma parsed_seq_ok : forall ns pos,
  Forall (fun n => pnode_ok n = true) ns -> seq_ok pos ns.
Proof. intros ns pos H. eapply Forall_impl; [|exact H]. intros n Hn; left; exact Hn. Qed.

Lemma any_start_no_panic : forall m en n starts,
  (forall st, In st starts -> m st <> Panic) -> any_start m en n starts <> Panic.
Proof.
  intros m en n starts. induction starts as [|st sts IH]; intros H; simpl; [discriminate|].
  specialize (H st (or_introl eq_refl)) as Hst.
  destruct (m st) as [[[e c]|]| |]; simpl; try congruence.
  - destruct (if en then _ else _); [discriminate|]. apply IH. intros; apply H; right; assumption.
  - apply IH. intros; apply H; right; assumption.
Qed.

Lemma parsed_match_safe : forall pat ns st en, parse pat = Done (Ok (ns, st, en)) ->
  forall f s pos c, pos <= length s ->
    match_from f pos ns s c <> Panic /\
    (forall e c', match_from f pos ns s c = Done (Some (e, c')) -> pos <= e <= length s).
Proof.
  intros pat ns st en Hp f s pos c Hpos.
  pose proof (parse_post pat) as Hpost. rewrite Hp in Hpost.
  pose proof (proj1 (match_from_safe f) pos ns s c Hpos (parsed_seq_ok ns pos Hpost)) as Hs.
  destruct (match_from f pos ns s c) as [[[e c']|]| |]; simpl in Hs; try contradiction;
    split; try discriminate; intros e0 c0 H; try discriminate.
  injection H as -> ->. exact Hs.
Qed.

(** C4 (corrected). The matcher never panics: on the nodes of any pattern
    the parser accepts, from any position within the input, a call of
    [match_from] that returns gives [Some] or [None], never a panic (every
    index is in bounds, group ids and back-references are at least 1, every
    [CapEnd] slice [start..pos] is well-formed), and any match it reports
    ends within [pos..=len(input)]; so [is_match] never panics either. It
    need not return, though: see C2 for [(a* )+]. *)
Theorem matcher_never_panics :
  (forall pat ns st en, parse pat = Done (Ok (ns, st, en)) ->
   forall f s pos c, pos <= length s ->
     match_from f pos ns s c <> Panic /\
     (forall e c', match_from f pos ns s c = Done (Some (e, c')) -> pos <= e <= length s)) /\
  (forall f s pat, is_match f s pat <> Panic).
Proof.
  split; [exact parsed_match_safe|].
  intros f s pat. unfold is_match.
    pose proof (parse_post pat) as Hpost.
    destruct (parse pat) as [[[[ns st] en]|e]| |]; simpl in *; try discriminate; try contradiction.
    assert (Hm : forall j, In j (if st then [0] else seq 0 (S (length s))) ->
                 match_from f j ns s [] <> Panic).
    { intros j Hj.
      assert (Hjl : j <= length s).
      { destruct st; [simpl in Hj; destruct Hj as [<-|[]]; lia|].
        apply in_seq in Hj. lia. }
      pose proof (proj1 (match_from_safe f) j ns s [] Hjl (parsed_seq_ok ns j Hpost)) as Hs.
      destruct (match_from f j ns s []); simpl in Hs; congruence. }
    pose proof (any_start_no_panic _ en (length s) _ Hm) as Ha.
    destruct (any_start _ _ _ _); simpl; congruence.
Qed.

Lemma matcher_never_panics_witness :
  parse (str "(a)\1") = Done (Ok ([Cap 1 [[Lit (ch "a")]]; Ref 1], false, false)) /\
  0 <= length (str "aa") /\
  match_from 10 0 [Cap 1 [[Lit (ch "a")]]; Ref 1] (str "aa") [] <> Panic /\
  (forall e c', match_from 10 0 [Cap 1 [[Lit (ch "a")]]; Ref 1] (str "aa") [] = Done (Some (e, c')) ->
     0 <= e <= length (str "aa")).
Proof.
  assert (Hp : parse (str "(a)\1") = Done (Ok ([Cap 1 [[Lit (ch "a")]]; Ref 1], false, false)))
    by (vm_compute; reflexivity).
  refine (conj Hp (conj _ _)); [simpl; lia|].
  apply (proj1 matcher_never_panics (str "(a)\1") _ false false Hp 10 (str "aa") 0 []).
  simpl; lia.
Defined.

(** C4 (counterexample). "Returns a result" fails: on [""] the accepted
    pattern [(a* )+] makes [is_match] recurse without end. *)
Lemma matcher_returns_cex :
  (exists ns, parse (str "(a*)+") = Done (Ok (ns, false, false))) /\
  ~ (exists f r, is_match f (str "") (str "(a*)+") = Done r).
Proof.
  split; [eexists; apply parse_plus_grp|].
  intros (f & r & H). rewrite is_match_plus_grp_diverges in H. discriminate.
Qed.

(** ** C2 *)











(** ** Parsing a prefix without groups *)







Lemma single_plain : forall n, is_single n = true -> plain_node n = true.
Proof. intros n H; destruct n; simpl in *; try discriminate; auto. Qed.

Lemma span_digits_app : forall l ds rest, span_digits l = (ds, rest) -> l = ds ++ rest.
Proof.
  induction l as [|c l IH]; simpl; intros ds rest H; [injection H as <- <-; reflexivity|].
  destruct (is_ascii_digit c).
  - destruct (span_digits l) as [d r] eqn:E. injection H as <- <-. simpl. f_equal. apply IH; reflexivity.
  - injection H as <- <-; reflexivity.
Qed.



Lemma quant_suffix : forall n rest n' rest', quant n rest = Ok (n', rest') ->
  (exists pre, rest = pre ++ rest') /\ (is_single n = true -> plain_node n' = true).
Proof.
  intros n rest n' rest' H. destruct rest as [|q r].
  - injection H as <- <-. split; [exists []; reflexivity | apply single_plain].
  - simpl in H.
    destruct (N.eqb q PLUS); [injection H as <- <-; split; [exists [q]; reflexivity | auto]|].
    destruct (N.eqb q QMARK); [injection H as <- <-; split; [exists [q]; reflexivity | auto]|].
    destruct (N.eqb q STAR); [injection H as <- <-; split; [exists [q]; reflexivity | auto]|].
    destruct (N.eqb q LBRACE);
      [|injection H as <- <-; split; [exists []; reflexivity | apply single_plain]].
    destruct (span_digits r) as [ds rest0] eqn:Es. apply span_digits_app in Es.
    destruct rest0 as [|c rest1]; [discriminate|].
    destruct (N.eqb c RBRACE); [|discriminate].
    destruct (parse_usize ds); [|discriminate]. injection H as <- <-.
    split; [exists (q :: ds ++ [c]); rewrite Es; simpl; rewrite <- app_assoc; reflexivity | auto].
Qed.

Lemma class_members_app : forall l s rest, class_members l = (s, rest) -> l = s ++ rest.
Proof.
  induction l as [|c l IH]; simpl; intros s rest H; [injection H as <- <-; reflexivity|].
  destruct (N.eqb c RBRACK); [injection H as <- <-; reflexivity|].
  destruct (class_members l) as [s0 r0] eqn:E. injection H as <- <-. simpl. f_equal. apply IH; reflexivity.
Qed.

Lemma class_suffix : forall cs n rest, class cs = Ok (n, rest) ->
  (exists pre, cs = pre ++ rest) /\ is_single n = true.
Proof.
  intros cs n rest H. unfold class in H.
  assert (G : forall (neg : bool) cs1, (exists pre, cs = pre ++ cs1) ->
            (let '(s, rest0) := class_members cs1 in
             match rest0 with
             | _ :: rest' => Ok (if neg then Neg s else Pos s, rest')
             | [] => Err UnclosedClass
             end) = Ok (n, rest) ->
            (exists pre, cs = pre ++ rest) /\ is_single n = true).
  { intros neg cs1 [pre Hp] H1. destruct (class_members cs1) as [s r0] eqn:Em.
    apply class_members_app in Em. destruct r0 as [|x r1]; [discriminate|].
    injection H1 as <- <-.
    split; [exists (pre ++ s ++ [x]); rewrite Hp, Em, <- !app_assoc; reflexivity | destruct neg; reflexivity]. }
  destruct cs as [|c r].
  - exact (G false [] (ex_intro _ [] eq_refl) H).
  - destruct (N.eqb c CARET) eqn:Ec.
    + exact (G true r (ex_intro _ [c] eq_refl) H).
    + exact (G false (c :: r) (ex_intro _ [] eq_refl) H).
Qed.





(** ** C10 *)


Lemma last_not_end_anchor : forall a, last_not DOLLAR a = true -> end_anchor a = false.
Proof.
  intros a. unfold last_not, end_anchor. destruct (rev a) as [|d r]; [reflexivity|].
  intros H. apply negb_true_iff in H. rewrite H. reflexivity.
Qed.

Lemma parse_unanchored_end : forall (pattern : list char) st (pat1 : list char),
  (match pattern with
   | c :: r => if N.eqb c CARET then (true, r) else (false, pattern)
   | [] => (false, pattern)
   end) = (st, pat1) ->
  end_anchor pat1 = false ->
  parse pattern = rbind (elems (S (length pat1)) pat1 0) (fun '(ns, _, _) => Done (Ok (ns, st, false))).
Proof.
  intros pattern st pat1 H1 H2. unfold parse. destruct pattern as [|c r].
  - cbv beta iota in H1. injection H1 as <- <-. cbv beta iota zeta. rewrite H2. reflexivity.
  - destruct (N.eqb c CARET); cbv beta iota in H1; injection H1 as <- <-;
      cbv beta iota zeta; rewrite H2; reflexivity.
Qed.




(** * Further properties of the code *)

(** ** Literal patterns and single-character sequences *)

Lemma lit_char_spec : forall c, lit_char c = true ->
  N.eqb c BSLASH = false /\ N.eqb c LBRACK = false /\ N.eqb c LPAREN = false /\
  N.eqb c RPAREN = false /\ N.eqb c DOT = false /\ N.eqb c PLUS = false /\
  N.eqb c QMARK = false /\ N.eqb c STAR = false /\ N.eqb c LBRACE = false.
Proof.
  intros c. unfold lit_char. simpl.
  destruct (N.eqb c BSLASH), (N.eqb c LBRACK), (N.eqb c LPAREN), (N.eqb c RPAREN),
    (N.eqb c DOT), (N.eqb c PLUS), (N.eqb c QMARK), (N.eqb c STAR), (N.eqb c LBRACE);
    simpl; intros H; try discriminate; repeat split.
Qed.

Lemma elems_lit : forall p f g, forallb lit_char p = true -> length p < f ->
  elems f p g = Done (Ok (map Lit p, [], g)).
Proof.
  induction p as [|c p IH]; intros f g Hp Hf; destruct f as [|f]; simpl in Hf; try lia.
  - reflexivity.
  - simpl in Hp. apply andb_prop in Hp as [Hc Hp].
    destruct (lit_char_spec c Hc) as (E1 & E2 & E3 & E4 & E5 & _).
    cbn [elems]. rewrite E4. unfold atom. rewrite E1, E2, E3, E5. cbn [rbind obind].
    assert (Hq : quant (Lit c) p = Ok (Lit c, p)).
    { destruct p as [|q p']; [reflexivity|]. simpl in Hp. apply andb_prop in Hp as [Hq _].
      destruct (lit_char_spec q Hq) as (_ & _ & _ & _ & _ & F6 & F7 & F8 & F9).
      unfold quant. rewrite F6, F7, F8, F9. reflexivity. }
    rewrite Hq. rewrite IH by (assumption || lia). reflexivity.
Qed.

Lemma last_not_of : forall x (p : list char), (forall q, p <> q ++ [x]) -> last_not x p = true.
Proof.
  intros x p H. unfold last_not. destruct (rev p) as [|d r] eqn:Er; [reflexivity|].
  destruct (N.eqb d x) eqn:Ed; [|reflexivity]. apply N.eqb_eq in Ed; subst.
  exfalso. apply (H (rev r)). rewrite <- (rev_involutive p), Er. reflexivity.
Qed.

Lemma end_anchor_lit : forall p, forallb lit_char p = true -> end_anchor (p ++ [DOLLAR]) = true.
Proof.
  intros p Hp. unfold end_anchor. rewrite rev_app_distr. simpl.
  destruct (rev p) as [|b r] eqn:Er; [reflexivity|].
  assert (Hb : In b p) by (apply in_rev; rewrite Er; left; reflexivity).
  rewrite forallb_forall in Hp. destruct (lit_char_spec b (Hp b Hb)) as (E1 & _).
  rewrite E1. reflexivity.
Qed.

Lemma parse_literal : forall p (st en : bool), forallb lit_char p = true ->
  (st = false -> forall r, p <> CARET :: r) ->
  (en = false -> forall q, p <> q ++ [DOLLAR]) ->
  parse ((if st then [CARET] else []) ++ p ++ (if en then [DOLLAR] else []))
  = Done (Ok (map Lit p, st, en)).
Proof.
  intros p st en Hp Hst Hen.
  assert (H2 : (if end_anchor (p ++ (if en then [DOLLAR] else []))
                then (true, removelast (p ++ (if en then [DOLLAR] else [])))
                else (false, p ++ (if en then [DOLLAR] else []))) = (en, p)).
  { destruct en.
    - rewrite end_anchor_lit, removelast_last by exact Hp. reflexivity.
    - rewrite app_nil_r, last_not_end_anchor; [reflexivity|].
      apply last_not_of, Hen; reflexivity. }
  unfold parse. destruct st.
  - simpl app at 1. cbv beta iota zeta. rewrite N.eqb_refl. cbv beta iota zeta. rewrite H2.
    rewrite elems_lit by (assumption || lia). reflexivity.
  - simpl app at 1. destruct p as [|c r].
    + destruct en; reflexivity.
    + destruct (N.eqb c CARET) eqn:Ec.
      { apply N.eqb_eq in Ec; subst. exfalso. exact (Hst eq_refl r eq_refl). }
      simpl app. cbv beta iota zeta. rewrite Ec. cbv beta iota zeta. simpl app in H2. rewrite H2.
      rewrite elems_lit by (assumption || simpl; lia). reflexivity.
Qed.

Lemma singles_match : forall ns f pos cs c, forallb is_single ns = true -> length ns < f ->
  match_from f pos ns cs c =
  Done (if window ns cs pos then Some (pos + length ns, c) else None).
Proof.
  induction ns as [|n t IH]; intros f pos cs c Hs Hf; destruct f as [|f]; simpl in Hf; try lia.
  - simpl. rewrite Nat.add_0_r. reflexivity.
  - simpl in Hs. apply andb_prop in Hs as [Hn Ht].
    replace (pos + length (n :: t)) with (S pos + length t) by (simpl; lia).
    destruct n; try discriminate; cbn [match_from window];
      destruct (nth_error cs pos) as [y|]; try reflexivity; simpl char_pred;
      [ destruct (N.eqb y c0) | destruct (is_ascii_digit y)
      | destruct (is_ascii_alphanumeric y || N.eqb y UNDERSCORE) | idtac
      | destruct (contains s y) | destruct (negb (contains s y)) ];
      simpl andb; try reflexivity; rewrite IH by (assumption || lia); reflexivity.
Qed.

Lemma any_start_eval : forall m en n starts (r : nat -> option (nat * captures)),
  (forall j, In j starts -> m j = Done (r j)) ->
  any_start m en n starts = Done (existsb (fun j => accepted en n (r j)) starts).
Proof.
  intros m en n starts r. induction starts as [|j js IH]; intros H; simpl; [reflexivity|].
  rewrite (H j (or_introl eq_refl)). simpl. unfold accepted at 1.
  destruct (r j) as [[e c]|]; [destruct (if en then Nat.eqb e n else true)|];
    simpl; try reflexivity; apply IH; intros; apply H; right; assumption.
Qed.

Lemma singles_is_match : forall f p s ns st en,
  parse p = Done (Ok (ns, st, en)) -> forallb is_single ns = true -> length ns < f ->
  exists b, is_match f s p = Done (Ok b) /\
  (b = true <-> exists j, j <= length s /\ (st = true -> j = 0) /\
                (en = true -> j + length ns = length s) /\ window ns s j = true).
Proof.
  intros f p s ns st en Hp Hs Hf. unfold is_match. rewrite Hp. cbn [rbind obind].
  rewrite (any_start_eval _ en (length s) _
             (fun j => if window ns s j then Some (j + length ns, []) else None))
    by (intros j _; apply singles_match; assumption).
  cbn [obind]. eexists; split; [reflexivity|].
  rewrite existsb_exists. split.
  - intros [j [Hin Ha]]. exists j. unfold accepted in Ha.
    destruct (window ns s j) eqn:Ew; [|discriminate].
    assert (Hen : en = true -> j + length ns = length s)
      by (intros ->; apply Nat.eqb_eq; exact Ha).
    destruct st.
    + destruct Hin as [<-|[]]. repeat split; auto; lia.
    + apply in_seq in Hin. repeat split; auto; try lia; discriminate.
  - intros (j & Hj & Hst & Hen & Hw). exists j. split.
    + destruct st; [rewrite Hst by reflexivity; left; reflexivity | apply in_seq; lia].
    + unfold accepted. rewrite Hw. destruct en; [apply Nat.eqb_eq; auto | reflexivity].
Qed.

Lemma window_shift : forall ns cs j k, window ns cs (j + k) = window ns (skipn j cs) k.
Proof.
  induction ns as [|n t IH]; intros cs j k; simpl; [reflexivity|].
  rewrite nth_error_skipn, <- Nat.add_succ_r, IH. reflexivity.
Qed.

Lemma window_lit : forall p t, window (map Lit p) t 0 = true <-> exists v, t = p ++ v.
Proof.
  induction p as [|c p IH]; intros t; simpl.
  - split; [intros _; exists t; reflexivity | reflexivity].
  - destruct t as [|x t]; simpl.
    + split; [discriminate | intros [v Hv]; discriminate].
    + change 1 with (1 + 0). rewrite window_shift. simpl skipn.
      rewrite andb_true_iff, N.eqb_eq, IH. split.
      * intros [-> [v ->]]. exists v. reflexivity.
      * intros [v Hv]. injection Hv as -> ->. split; [reflexivity | exists v; reflexivity].
Qed.

Lemma window_lit_at : forall p s j,
  window (map Lit p) s j = true <-> exists v, skipn j s = p ++ v.
Proof.
  intros p s j. assert (E := window_shift (map Lit p) s j 0).
  rewrite Nat.add_0_r in E. rewrite E. apply window_lit.
Qed.

(** X1. A pattern made only of single-character atoms (literals, [.],
    [\d], [\w], classes), after its anchors are stripped, matches a line
    exactly when some window of the line, starting at offset 0 if the
    pattern starts with [^] and ending at the line's end if it ends with
    [$], has each character accepted by the atom at the same position. *)
Theorem single_atoms_window : forall f p s ns st en,
  parse p = Done (Ok (ns, st, en)) -> forallb is_single ns = true -> length ns < f ->
  exists b, is_match f s p = Done (Ok b) /\
  (b = true <-> exists j, j <= length s /\ (st = true -> j = 0) /\
                (en = true -> j + length ns = length s) /\ window ns s j = true).
Proof. intros. apply singles_is_match; assumption. Qed.

Lemma single_atoms_window_witness :
  exists b, is_match 5 (str "x7y") (str "\d.$") = Done (Ok b) /\
  (b = true <-> exists j, j <= length (str "x7y") /\ (false = true -> j = 0) /\
                (true = true -> j + length [Digit; Any] = length (str "x7y")) /\
                window [Digit; Any] (str "x7y") j = true).
Proof.
  apply (single_atoms_window 5 (str "\d.$") (str "x7y") [Digit; Any] false true);
    [vm_compute; reflexivity | reflexivity | simpl; lia].
Defined.

(** X2. A pattern made of characters other than [\ [ ( ) . + ? * {],
    optionally preceded by [^] and followed by [$], is a plain substring
    search: it matches a line exactly when the line is [u ++ p ++ v], with
    [u] empty under [^] and [v] empty under [$]. A [|] outside a group is
    an ordinary character. *)
Theorem literal_pattern_search : forall f p s (st en : bool),
  forallb lit_char p = true ->
  (st = false -> forall r, p <> CARET :: r) ->
  (en = false -> forall q, p <> q ++ [DOLLAR]) ->
  length p < f ->
  exists b,
    is_match f s ((if st then [CARET] else []) ++ p ++ (if en then [DOLLAR] else []))
    = Done (Ok b) /\
    (b = true <-> exists u v, s = u ++ p ++ v /\ (st = true -> u = []) /\ (en = true -> v = [])).
Proof.
  intros f p s st en Hp Hst Hen Hf.
  assert (Hs : forallb is_single (map Lit p) = true)
    by (clear; induction p; simpl; auto).
  destruct (singles_is_match f _ s (map Lit p) st en (parse_literal p st en Hp Hst Hen) Hs)
    as [b [Hb Hiff]]; [rewrite length_map; exact Hf|].
  exists b. split; [exact Hb|]. rewrite Hiff, length_map. split.
  - intros (j & Hj & Hj0 & Hjn & Hw). apply window_lit_at in Hw as [v Hv].
    exists (firstn j s), v.
    assert (Hs' : s = firstn j s ++ p ++ v) by (rewrite <- Hv; symmetry; apply firstn_skipn).
    split; [exact Hs'|]. split.
    + intros H. rewrite (Hj0 H). reflexivity.
    + intros H. apply Hjn in H. apply length_zero_iff_nil.
      assert (Hl := f_equal (@length char) Hs'). rewrite !length_app, length_firstn in Hl. lia.
  - intros (u & v & -> & Hu & Hv). exists (length u). split; [rewrite length_app; lia|].
    split; [intros H; rewrite (Hu H); reflexivity|]. split.
    + intros H. rewrite (Hv H), !length_app. simpl. lia.
    + apply window_lit_at. exists v. rewrite skipn_app, skipn_all, Nat.sub_diag. reflexivity.
Qed.

Lemma literal_pattern_search_witness :
  exists b,
    is_match 10 (str "xaby") ((if false then [CARET] else []) ++ str "a|b" ++
                              (if false then [DOLLAR] else [])) = Done (Ok b) /\
    (b = true <-> exists u v, str "xaby" = u ++ str "a|b" ++ v /\
                  (false = true -> u = []) /\ (false = true -> v = [])).
Proof.
  apply (literal_pattern_search 10 (str "a|b") (str "xaby") false false).
  - vm_compute. reflexivity.
  - intros _ r H. discriminate H.
  - intros _ q H. assert (Hl := f_equal (fun l => last l 0%N) H).
    cbv beta in Hl. rewrite last_last in Hl. vm_compute in Hl. discriminate Hl.
  - simpl. lia.
Defined.

(** ** Group numbering *)

Lemma seq_join : forall a b c, a <= b -> b <= c ->
  seq (S a) (b - a) ++ seq (S b) (c - b) = seq (S a) (c - a).
Proof.
  intros a b c H1 H2. replace (c - a) with ((b - a) + (c - b)) by lia.
  rewrite seq_app. f_equal. f_equal. lia.
Qed.

Lemma quant_caps : forall n cs n' cs', quant n cs = Ok (n', cs') -> cap_ids n' = cap_ids n.
Proof.
  intros n cs n' cs' Hq. unfold quant in Hq. destruct cs as [|q r].
  - injection Hq as <- _. reflexivity.
  - destruct (N.eqb q PLUS); [injection Hq as <- _; reflexivity|].
    destruct (N.eqb q QMARK); [injection Hq as <- _; reflexivity|].
    destruct (N.eqb q STAR); [injection Hq as <- _; reflexivity|].
    destruct (N.eqb q LBRACE); [|injection Hq as <- _; reflexivity].
    destruct (span_digits r) as [ds [|x rest']]; [discriminate|].
    destruct (N.eqb x RBRACE); [|discriminate].
    destruct (parse_usize ds); [|discriminate]. injection Hq as <- _. reflexivity.
Qed.

Lemma branches_num : forall el s g,
  (forall seg g, elems_num g (el seg g)) ->
  match branches el s g with
  | Done (Ok (brs, g')) =>
      g <= g' /\ concat (map (fun b => concat (map cap_ids b)) brs) = seq (S g) (g' - g)
  | _ => True
  end.
Proof.
  intros el s g Hel. unfold branches. generalize (split_bar s 0 []) as segs.
  intros segs. revert g. induction segs as [|seg segs IH]; intros g; simpl.
  - rewrite Nat.sub_diag. split; reflexivity.
  - specialize (Hel seg g). destruct (el seg g) as [[[[ns r] g1]|e]| |]; simpl in *; auto.
    destruct Hel as [Hg1 Hn].
    specialize (IH g1). destruct (_ segs g1) as [[[out g2]|e]| |]; simpl in *; auto.
    destruct IH as [Hg2 Ho]. split; [lia|]. rewrite Hn, Ho. apply seq_join; assumption.
Qed.

Lemma atom_num : forall el c cs1 g, (forall seg g, elems_num g (el seg g)) ->
  match atom el c cs1 g with
  | Done (Ok (n, _, g1)) => g <= g1 /\ cap_ids n = seq (S g) (g1 - g)
  | _ => True
  end.
Proof.
  intros el c cs1 g Hel. unfold atom.
  destruct (N.eqb c BSLASH).
  { destruct cs1 as [|e cs2]; [exact I|]. split; [lia|]. rewrite Nat.sub_diag.
    unfold escape. destruct (N.eqb e (ch "d")); [reflexivity|].
    destruct (N.eqb e (ch "w")); [reflexivity|].
    destruct ((49 <=? e)%N && (e <=? 57)%N); reflexivity. }
  destruct (N.eqb c LBRACK).
  { destruct (class cs1) as [[n cs2]|e] eqn:E; [|exact I].
    apply class_suffix in E as [_ Hs]. split; [lia|]. rewrite Nat.sub_diag.
    destruct n; try discriminate; reflexivity. }
  destruct (N.eqb c LPAREN).
  { destruct (collect_group cs1 0) as [buf cs2].
    pose proof (branches_num el buf (S g) Hel) as Hb.
    destruct (branches el buf (S g)) as [[[brs g']|e]| |]; simpl in *; auto.
    destruct Hb as [Hg Hb]. split; [lia|]. rewrite Hb.
    replace (g' - g) with (S (g' - S g)) by lia. reflexivity. }
  destruct (N.eqb c DOT); (split; [lia | rewrite Nat.sub_diag; reflexivity]).
Qed.

Lemma elems_numbering : forall f cs g, elems_num g (elems f cs g).
Proof.
  induction f as [|f IH]; intros cs g; [exact I|].
  destruct cs as [|c cs1]; simpl; [split; [lia | rewrite Nat.sub_diag; reflexivity]|].
  destruct (N.eqb c RPAREN); [simpl; split; [lia | rewrite Nat.sub_diag; reflexivity]|].
  pose proof (atom_num (elems f) c cs1 g IH) as Ha.
  destruct (atom (elems f) c cs1 g) as [[[[n cs2] g1]|e]| |]; simpl in *; auto.
  destruct Ha as [Hg1 Hn].
  destruct (quant n cs2) as [[n' cs3]|e] eqn:Eq; simpl; [|exact I].
  pose proof (IH cs3 g1) as Hr.
  destruct (elems f cs3 g1) as [[[[out rest] g']|e]| |]; simpl in *; auto.
  destruct Hr as [Hg' Ho]. split; [lia|].
  rewrite (quant_caps _ _ _ _ Eq), Hn, Ho. apply seq_join; assumption.
Qed.

(** X3. The groups of a parsed pattern are numbered [1, 2, ..., k] in the
    order of their opening parentheses (nested groups after the group that
    contains them), each number used once; this is the number a
    back-reference [\k] names. *)
Theorem parse_group_numbering : forall p ns st en,
  parse p = Done (Ok (ns, st, en)) -> exists k, concat (map cap_ids ns) = seq 1 k.
Proof.
  intros p ns st en. unfold parse.
  assert (G : forall (start end_ : bool) cs,
    rbind (elems (S (length cs)) cs 0) (fun '(ns, _, _) => Done (Ok (ns, start, end_)))
      = Done (Ok (ns, st, en)) -> exists k, concat (map cap_ids ns) = seq 1 k).
  { intros start end_ cs H. pose proof (elems_numbering (S (length cs)) cs 0) as Hn.
    destruct (elems (S (length cs)) cs 0) as [[[[ns0 r] g]|e]| |]; simpl in *;
      try discriminate.
    injection H as <- _ _. exists (g - 0). apply Hn. }
  destruct p as [|c r]; [|destruct (N.eqb c CARET)]; cbv beta iota zeta;
    match goal with |- context [if end_anchor ?p then _ else _] => destruct (end_anchor p) end;
    apply G.
Qed.

Lemma parse_group_numbering_witness :
  exists k, concat (map cap_ids [Cap 1 [[Lit (ch "a"); Cap 2 [[Lit (ch "b")]]]]; Cap 3 [[Lit (ch "c")]; [Ref 1]]])
            = seq 1 k.
Proof.
  apply (parse_group_numbering (str "(a(b))(c|\1)") _ false false).
  vm_compute. reflexivity.
Defined.

(** ** [parse] always returns *)

Lemma collect_group_split : forall cs d b rest, collect_group cs d = (b, rest) ->
  cs = b ++ RPAREN :: rest \/ (cs = b /\ rest = []).
Proof.
  induction cs as [|c cs IH]; intros d b rest H; simpl in H.
  - injection H as <- <-. right; split; reflexivity.
  - destruct (N.eqb c LPAREN).
    + destruct (collect_group cs (S d)) as [b0 r0] eqn:E. injection H as <- <-.
      destruct (IH _ _ _ E) as [->|[-> ->]]; [left | right]; auto.
    + destruct (N.eqb c RPAREN) eqn:Ec.
      * destruct d as [|d'].
        -- injection H as <- <-. left. apply N.eqb_eq in Ec. subst. reflexivity.
        -- destruct (collect_group cs d') as [b0 r0] eqn:E. injection H as <- <-.
           destruct (IH _ _ _ E) as [->|[-> ->]]; [left | right]; auto.
      * destruct (collect_group cs d) as [b0 r0] eqn:E. injection H as <- <-.
        destruct (IH _ _ _ E) as [->|[-> ->]]; [left | right]; auto.
Qed.

Lemma split_bar_len : forall cs d cur,
  Forall (fun seg => length seg <= length cur + length cs) (split_bar cs d cur).
Proof.
  induction cs as [|c cs IH]; intros d cur; simpl.
  - constructor; [lia | constructor].
  - destruct (Z.eqb d 0 && N.eqb c BAR).
    + constructor; [lia|]. eapply Forall_impl; [|apply IH]. intros seg H; simpl in H; lia.
    + eapply Forall_impl; [|apply IH]. intros seg H. rewrite length_app in H. simpl in H. lia.
Qed.

Lemma atom_len : forall el c cs1 g n cs2 g1,
  atom el c cs1 g = Done (Ok (n, cs2, g1)) -> length cs2 <= length cs1.
Proof.
  intros el c cs1 g n cs2 g1. unfold atom.
  destruct (N.eqb c BSLASH).
  { destruct cs1; intros H; [discriminate|]. injection H as _ <- _. simpl; lia. }
  destruct (N.eqb c LBRACK).
  { destruct (class cs1) as [[n0 r0]|e] eqn:E; intros H; [|discriminate].
    injection H as _ <- _. apply class_suffix in E as [[pre ->] _]. rewrite length_app; lia. }
  destruct (N.eqb c LPAREN).
  { destruct (collect_group cs1 0) as [buf r0] eqn:E. intros H.
    destruct (branches el buf (S g)) as [[[brs g']|e]| |]; simpl in H; try discriminate.
    injection H as _ <- _.
    apply collect_group_split in E as [->|[_ ->]]; [rewrite length_app; simpl; lia | simpl; lia]. }
  destruct (N.eqb c DOT); intros H; injection H as _ <- _; lia.
Qed.

Lemma branches_total : forall el s g,
  (forall seg g, length seg <= length s -> el seg g <> NoFuel) -> branches el s g <> NoFuel.
Proof.
  intros el s g Hel. unfold branches.
  assert (Hs := split_bar_len s 0 []). simpl in Hs.
  revert Hs. generalize (split_bar s 0 []) as segs. intros segs Hs.
  revert g. induction segs as [|seg segs IH]; intros g; simpl; [discriminate|].
  inversion Hs as [|? ? Hseg Hrest]; subst.
  specialize (Hel seg g Hseg).
  destruct (el seg g) as [[[[ns r] g1]|e]| |]; simpl; try discriminate; [|congruence].
  specialize (IH Hrest g1).
  destruct (_ segs g1) as [[[out g2]|e]| |]; simpl; try discriminate; congruence.
Qed.

(** [elems] with more fuel than the length of its input returns: every
    recursive call is on a shorter input. *)
Lemma elems_total : forall f cs g, length cs < f -> elems f cs g <> NoFuel.
Proof.
  induction f as [|f IH]; intros cs g Hf; [simpl in Hf; lia|].
  destruct cs as [|c cs1]; simpl; [discriminate|].
  destruct (N.eqb c RPAREN); [discriminate|].
  simpl in Hf.
  assert (Ha : atom (elems f) c cs1 g <> NoFuel).
  { unfold atom. destruct (N.eqb c BSLASH); [destruct cs1; discriminate|].
    destruct (N.eqb c LBRACK); [destruct (class cs1) as [[? ?]|?]; discriminate|].
    destruct (N.eqb c LPAREN); [|destruct (N.eqb c DOT); discriminate].
    destruct (collect_group cs1 0) as [buf cs2] eqn:E.
    assert (Hb : branches (elems f) buf (S g) <> NoFuel).
    { apply branches_total. intros seg g' Hs. apply IH.
      apply collect_group_split in E as [->|[-> _]]; rewrite ?length_app in *; simpl in *; lia. }
    destruct (branches (elems f) buf (S g)) as [[[brs g']|e]| |]; simpl; congruence. }
  pose proof (atom_len (elems f) c cs1 g) as Hl.
  destruct (atom (elems f) c cs1 g) as [[[[n cs2] g1]|e]| |]; simpl;
    [|discriminate|discriminate|congruence].
  specialize (Hl n cs2 g1 eq_refl).
  destruct (quant n cs2) as [[n' cs3]|e] eqn:Eq; [|discriminate].
  apply quant_suffix in Eq as [[pre ->] _]. rewrite length_app in Hl.
  assert (Hr : elems f cs3 g1 <> NoFuel) by (apply IH; lia).
  destruct (elems f cs3 g1) as [[[[out rest] g']|e]| |]; simpl; congruence.
Qed.

(** X4. [parse] returns on every pattern, without a panic: a node list
    with its two anchor flags, or one of the parse errors. *)
Theorem parse_returns : forall p, exists r, parse p = Done r.
Proof.
  intros p. unfold parse.
  assert (G : forall (start end_ : bool) cs, exists r,
    rbind (elems (S (length cs)) cs 0) (fun '(ns, _, _) => Done (Ok (ns, start, end_))) = Done r).
  { intros start end_ cs.
    pose proof (elems_total (S (length cs)) cs 0 (Nat.lt_succ_diag_r _)) as H.
    pose proof (elems_safe (S (length cs)) cs 0) as Hs.
    destruct (elems (S (length cs)) cs 0) as [[[[ns r] g]|e]| |]; simpl in *;
      [eexists; reflexivity | eexists; reflexivity | contradiction | congruence]. }
  destruct p as [|c r]; [|destruct (N.eqb c CARET)]; cbv beta iota zeta;
    match goal with |- context [if end_anchor ?p then _ else _] => destruct (end_anchor p) end;
    apply G.
Qed.

(** ** [set_slot]: recording a group's text *)

(** X5. Recording the text [s] of group slot [slot] (the [CapEnd] arm of
    [match_from]) makes that slot hold [s]; every other slot keeps its
    value, the slots added between the old end and [slot] hold [None], and
    the capture list grows to [max(len, slot + 1)]. *)
Theorem set_slot_lookup : forall slot c s,
  nth_error (set_slot c slot s) slot = Some (Some s) /\
  (forall i, i <> slot -> nth_error (set_slot c slot s) i =
     match nth_error c i with
     | Some x => Some x
     | None => if i <? slot then Some None else None
     end) /\
  length (set_slot c slot s) = Nat.max (length c) (S slot).
Proof.
  induction slot as [|k IH]; intros c s; destruct c as [|x r]; simpl.
  - split; [reflexivity|]. split; [|reflexivity].
    intros [|i] Hi; [congruence|]. destruct i; reflexivity.
  - split; [reflexivity|]. split; [|lia].
    intros [|i] Hi; [congruence|]. simpl. destruct (nth_error r i); reflexivity.
  - destruct (IH [] s) as (H1 & H2 & H3). split; [exact H1|]. split.
    + intros [|i] Hi; [reflexivity|]. simpl. rewrite H2 by congruence. destruct i; reflexivity.
    + rewrite H3. simpl. lia.
  - destruct (IH r s) as (H1 & H2 & H3). split; [exact H1|]. split.
    + intros [|i] Hi; [reflexivity|]. simpl. rewrite H2 by congruence. reflexivity.
    + rewrite H3. lia.
Qed.

(** ** [trim_end]: the line a segment is tested as *)

Lemma trim_end_snoc : forall p s c,
  trim_end p (s ++ [c]) = if p c then trim_end p s else s ++ [c].
Proof.
  intros p s c. unfold trim_end. rewrite rev_app_distr. simpl.
  destruct (p c); [reflexivity|]. simpl. rewrite rev_involutive. reflexivity.
Qed.

(** X6. [trim_end_matches] with a predicate [p] (the line tested for each
    segment, the label base of [grep_dir]) removes exactly the longest
    suffix of characters satisfying [p]: the text is the result followed by
    characters satisfying [p], and the result does not end in one. *)
Theorem trim_end_suffix : forall p s, exists u,
  s = trim_end p s ++ u /\ forallb p u = true /\
  (forall s' c, trim_end p s = s' ++ [c] -> p c = false).
Proof.
  intros p s. induction s as [|c s IH] using rev_ind.
  - exists []. split; [reflexivity|]. split; [reflexivity|].
    intros s' c H. destruct s'; discriminate.
  - rewrite trim_end_snoc. destruct (p c) eqn:Ec.
    + destruct IH as (u & Hu & Hp & Hl). exists (u ++ [c]). split.
      * rewrite app_assoc, <- Hu. reflexivity.
      * split; [rewrite forallb_app, Hp; simpl; rewrite Ec; reflexivity | exact Hl].
    + exists []. split; [rewrite app_nil_r; reflexivity|]. split; [reflexivity|].
      intros s' c' H. apply app_inj_tail in H as [_ <-]. exact Ec.
Qed.

Lemma trim_end_suffix_witness : exists u,
  str "ab
" = trim_end (fun c => N.eqb c NL || N.eqb c CR) (str "ab
") ++ u /\
  forallb (fun c => N.eqb c NL || N.eqb c CR) u = true /\
  (forall s' c, trim_end (fun c => N.eqb c NL || N.eqb c CR) (str "ab
") = s' ++ [c] ->
     (fun c => N.eqb c NL || N.eqb c CR) c = false).
Proof. apply trim_end_suffix. Defined.

(** ** Alternatives of a group *)

Lemma split_bar_nonempty : forall cs d cur, split_bar cs d cur <> [].
Proof.
  induction cs as [|c cs IH]; intros d cur; simpl; [discriminate|].
  destruct (Z.eqb d 0 && N.eqb c BAR); [discriminate | apply IH].
Qed.

(** X7. Splitting a group body into alternatives at the [|] of depth 0
    loses nothing: the alternatives joined back with [|] give the body
    (after the part [cur] already collected). *)
Theorem split_bar_join : forall cs d cur, join_bar (split_bar cs d cur) = cur ++ cs.
Proof.
  induction cs as [|c cs IH]; intros d cur; simpl.
  - rewrite app_nil_r. reflexivity.
  - destruct (Z.eqb d 0 && N.eqb c BAR) eqn:E.
    + apply andb_prop in E as [_ E]. apply N.eqb_eq in E. subst c.
      assert (Hn := split_bar_nonempty cs d []).
      destruct (split_bar cs d []) as [|x l] eqn:Es; [congruence|].
      change (join_bar (cur :: x :: l)) with (cur ++ BAR :: join_bar (x :: l)).
      rewrite <- Es, IH. reflexivity.
    + rewrite IH, <- app_assoc. reflexivity.
Qed.

(** ** [grep_content] *)

Lemma print_nonempty : forall prefix seg, print_with_prefix prefix seg <> [].
Proof.
  intros [pfx|] seg; unfold print_with_prefix.
  - destruct (ends_with_nl seg); intros H; apply (f_equal (@length char)) in H;
      rewrite !length_app in H; simpl in H; lia.
  - destruct (ends_with_nl seg) eqn:E.
    + intros ->. discriminate E.
    + intros H. apply (f_equal (@length char)) in H. rewrite length_app in H. simpl in H. lia.
Qed.

Lemma scan_out : forall ism segs prefix out any consumed o r,
  scan ism segs prefix out any consumed = (o, r) ->
  exists extra, o = out ++ extra /\
    (forall any' c', r = Done (Ok (any', c')) -> (any' = true <-> any = true \/ extra <> [])).
Proof.
  intros ism. induction segs as [|seg segs IH]; intros prefix out any consumed o r H; simpl in H.
  - injection H as <- <-. exists []. rewrite app_nil_r. split; [reflexivity|].
    intros any' c' H. injection H as <- _. split; [left; assumption | intros [H|H]; [exact H | congruence]].
  - destruct (ism _) as [[[|]|e]| |].
    + apply IH in H as [extra [-> Hr]]. exists (print_with_prefix prefix seg ++ extra).
      rewrite app_assoc. split; [reflexivity|]. intros any' c' Hd.
      specialize (Hr any' c' Hd). split; [intros _; right | intros _; apply Hr; left; reflexivity].
      intros Hx. apply app_eq_nil in Hx as [Hx _]. exact (print_nonempty _ _ Hx).
    + apply IH in H as [extra [-> Hr]]. exists extra. split; [reflexivity | exact Hr].
    + injection H as <- <-. exists []. rewrite app_nil_r. split; [reflexivity | discriminate].
    + injection H as <- <-. exists []. rewrite app_nil_r. split; [reflexivity | discriminate].
    + injection H as <- <-. exists []. rewrite app_nil_r. split; [reflexivity | discriminate].
Qed.

Lemma grep_content_printed_aux : forall ism content prefix out b,
  grep_content ism content prefix = (out, Done (Ok b)) -> (b = true <-> out <> []).
Proof.
  intros ism content prefix out b. unfold grep_content.
  destruct (scan ism (split_inclusive content []) prefix [] false 0) as [o r] eqn:E.
  apply scan_out in E as [extra [-> Hr]]. simpl app.
  destruct r as [[[any c]|e]| |]; intros H; try discriminate.
  specialize (Hr any c eq_refl).
  assert (Hx : any = true <-> extra <> [])
    by (rewrite Hr; split; [intros [H'|H']; [discriminate | exact H'] | right; assumption]).
  destruct (c <? length content).
  - destruct (ism _) as [[[|]|e]| |]; try discriminate H; injection H as <- <-.
    + split; [intros _ Hn | reflexivity].
      apply app_eq_nil in Hn as [_ Hn]. exact (print_nonempty _ _ Hn).
    + exact Hx.
  - injection H as <- <-. exact Hx.
Qed.

(** X8. Whatever line test it runs, [grep_content] returns [true]
    exactly when it printed something (a matching segment is never
    printed empty). *)
Theorem grep_content_printed : forall ism content prefix out b,
  grep_content ism content prefix = (out, Done (Ok b)) -> (b = true <-> out <> []).
Proof. exact grep_content_printed_aux. Qed.

Lemma grep_content_printed_witness :
  grep_content (fun l => is_match 10 l (str "b")) (str "ab
cd") None = (str "ab
", Done (Ok true)) /\
  (true = true <-> str "ab
" <> []).
Proof.
  split; [vm_compute; reflexivity|].
  apply (grep_content_printed (fun l => is_match 10 l (str "b")) (str "ab
cd") None).
  vm_compute. reflexivity.
Defined.

(** X9. With a pattern that does not parse, [grep_content] prints
    nothing; it returns the parse error when the content is not empty,
    and [false] without an error on empty content (no line is tested). *)
Theorem grep_content_bad_pattern : forall f pat e content prefix,
  parse pat = Done (Err e) ->
  grep_content (fun ln => is_match f ln pat) content prefix =
  ([], Done (match content with [] => Ok false | _ => Err e end)).
Proof.
  intros f pat e content prefix Hp.
  assert (Hm : forall ln, is_match f ln pat = Done (Err e))
    by (intros ln; unfold is_match; rewrite Hp; reflexivity).
  unfold grep_content. destruct content as [|c r]; [reflexivity|].
  assert (Hc := split_inclusive_concat (c :: r) []).
  destruct (split_inclusive (c :: r) []) as [|seg segs]; [discriminate|].
  simpl scan. rewrite Hm. reflexivity.
Qed.

Lemma grep_content_bad_pattern_witness :
  parse (str "a{") = Done (Err InvalidRepetition) /\
  grep_content (fun ln => is_match 10 ln (str "a{")) (str "xyz") None =
  ([], Done (match str "xyz" with [] => Ok false | _ => Err InvalidRepetition end)).
Proof.
  split; [vm_compute; reflexivity|].
  apply grep_content_bad_pattern. vm_compute. reflexivity.
Defined.

(** ** The command line *)

Lemma io_bind_ret_l : forall A B (a : A) (k : A -> io B), io_bind (ret a) k = k a.
Proof. intros A B a k. unfold io_bind, ret. destruct (k a); reflexivity. Qed.

Lemma io_bind_ext : forall A B (m : io A) (k k' : A -> io B),
  (forall a, k a = k' a) -> io_bind m k = io_bind m k'.
Proof. intros A B [o [[a|e]| |]] k k' H; simpl; try reflexivity. rewrite H. reflexivity. Qed.

Lemma io_bind_assoc : forall A B C (m : io A) (k : A -> io B) (h : B -> io C),
  io_bind (io_bind m k) h = io_bind m (fun a => io_bind (k a) h).
Proof.
  intros A B C [o1 [[a|e]| |]] k h; simpl; try reflexivity.
  destruct (k a) as [o2 [[b|e]| |]]; simpl; try reflexivity.
  destruct (h b) as [o3 r3]. rewrite app_assoc. reflexivity.
Qed.

Lemma run_items_app : forall fuel lb l1 l2 pat any,
  run_items fuel lb (l1 ++ l2) pat any =
  io_bind (run_items fuel lb l1 pat any) (fun a => run_items fuel lb l2 pat a).
Proof.
  intros fuel lb l1 l2 pat. induction l1 as [|[rel c|] l1 IH]; intros any; cbn [run_items app].
  - symmetry. apply io_bind_ret_l.
  - rewrite io_bind_assoc. apply io_bind_ext. intros b. apply IH.
  - reflexivity.
Qed.

Lemma walk_items : forall fuel lb pat d rel any,
  walk fuel lb rel d pat any = run_items fuel lb (dir_items rel d) pat any.
Proof.
  intros fuel lb pat d.
  apply (dir_mut
    (fun d => forall rel any, walk fuel lb rel d pat any = run_items fuel lb (dir_items rel d) pat any)
    (fun n => forall rel any, match n with
              | DirN sub => walk fuel lb rel sub pat any = run_items fuel lb (dir_items rel sub) pat any
              | _ => True
              end)).
  - reflexivity.
  - reflexivity.
  - intros name n Hn rest Hr rel any. cbn [walk dir_items]. rewrite run_items_app.
    destruct n as [c|sub|].
    + cbn [run_items]. cbv zeta. unfold file_label.
      destruct (join_slash (rel ++ [name])); apply io_bind_ext; intros a; apply Hr.
    + rewrite (Hn (rel ++ [name]) any). apply io_bind_ext. intros a. apply Hr.
    + cbn [run_items]. rewrite !io_bind_ret_l. apply Hr.
  - intros; exact I.
  - intros d0 Hd rel any. exact (Hd rel any).
  - intros; exact I.
Qed.

(** X10. [grep_dir] on a directory searches the files of the tree in
    depth-first order of the listings (a subdirectory's files where the
    subdirectory is listed), each labelled with the root without its
    trailing [/], then [/] and its path below the root; it skips entries
    that are neither files nor directories, and stops at the first
    failing listing or unreadable file, so that later files are not
    searched. *)
Theorem grep_dir_dfs : forall lookup fuel root pat d,
  lookup root = Some (DirN d) ->
  grep_dir lookup fuel root pat =
  run_items fuel (trim_end (fun c => N.eqb c SLASH) root) (dir_items [] d) pat false.
Proof. intros lookup fuel root pat d H. unfold grep_dir. rewrite H. apply walk_items. Qed.

Lemma grep_dir_dfs_witness :
  (fun _ => Some (DirN (Ent (str "a") (FileN (Some (str "x"))) DEnd))) (str "d/")
    = Some (DirN (Ent (str "a") (FileN (Some (str "x"))) DEnd)) /\
  grep_dir (fun _ => Some (DirN (Ent (str "a") (FileN (Some (str "x"))) DEnd))) 10
    (str "d/") (str "x") =
  run_items 10 (trim_end (fun c => N.eqb c SLASH) (str "d/"))
    (dir_items [] (Ent (str "a") (FileN (Some (str "x"))) DEnd)) (str "x") false.
Proof.
  split; [reflexivity|].
  apply (grep_dir_dfs (fun _ => Some (DirN (Ent (str "a") (FileN (Some (str "x"))) DEnd))) 10
           (str "d/") (str "x")).
  reflexivity.
Defined.

(** *** No other step reports the flag error *)

Lemma noflag_bind : forall A B (m : io A) (k : A -> io B),
  snd m <> Done (CErr EFlags) -> (forall a, snd (k a) <> Done (CErr EFlags)) ->
  snd (io_bind m k) <> Done (CErr EFlags).
Proof.
  intros A B [o [[a|e]| |]] k Hm Hk; simpl in *; try discriminate; [|intros Hx; injection Hx as ->; apply Hm; reflexivity].
  specialize (Hk a). destruct (k a) as [o2 r2]. exact Hk.
Qed.

Lemma noflag_lift : forall x, snd (lift_grep x) <> Done (CErr EFlags).
Proof. intros [o [[b|e]| |]]; simpl; discriminate. Qed.

Lemma noflag_gfwl : forall fuel c pat lab,
  snd (grep_file_with_label fuel c pat lab) <> Done (CErr EFlags).
Proof. intros fuel [c|] pat lab; [apply noflag_lift | simpl; discriminate]. Qed.

Lemma noflag_run_items : forall fuel lb items pat any,
  snd (run_items fuel lb items pat any) <> Done (CErr EFlags).
Proof.
  intros fuel lb items pat. induction items as [|[rel c|] items IH]; intros any; cbn [run_items].
  - simpl; discriminate.
  - apply noflag_bind; [apply noflag_gfwl | intros; apply IH].
  - simpl; discriminate.
Qed.

Lemma noflag_grep_dir : forall lookup fuel root pat,
  snd (grep_dir lookup fuel root pat) <> Done (CErr EFlags).
Proof.
  intros lookup fuel root pat. unfold grep_dir. cbv zeta.
  destruct (lookup root) as [[c|d|]|].
  - apply noflag_bind; [apply noflag_gfwl | intros; simpl; discriminate].
  - rewrite walk_items. apply noflag_run_items.
  - simpl; discriminate.
  - simpl; discriminate.
Qed.

Lemma noflag_for_roots : forall lookup fuel roots pat any,
  snd (for_roots lookup fuel roots pat any) <> Done (CErr EFlags).
Proof.
  intros lookup fuel roots pat. induction roots as [|r rs IH]; intros any; cbn [for_roots].
  - simpl; discriminate.
  - apply noflag_bind; [apply noflag_grep_dir | intros; apply IH].
Qed.

Lemma noflag_for_files : forall rf fuel files pat prefix any,
  snd (for_files rf fuel files pat prefix any) <> Done (CErr EFlags).
Proof.
  intros rf fuel files pat prefix. induction files as [|f fs IH]; intros any; cbn [for_files].
  - simpl; discriminate.
  - apply noflag_bind; [|intros; apply IH].
    unfold grep_file. destruct (rf f); [apply noflag_lift | simpl; discriminate].
Qed.

(** X11. [cli] fails with the flag error, printing nothing, exactly when
    the arguments after the program name start neither with [-E] nor with
    [-r] then [-E]; no other failure is this error. *)
Theorem cli_flag_error : forall stdin rf lookup fuel args,
  cli stdin rf lookup fuel args = ([], Done (CErr EFlags)) <-> ~ flags_ok args.
Proof.
  intros stdin rf lookup fuel args. split.
  - intros H [p0 [rest [-> | ->]]]; apply (f_equal snd) in H; revert H; unfold cli;
      cbn [next_arg].
    + replace (list_eqb (str "-E") (str "-r")) with false by reflexivity. cbv beta iota zeta.
      replace (negb (list_eqb (str "-E") (str "-E"))) with false by reflexivity.
      destruct (next_arg rest) as [pat files]. cbv beta iota.
      destruct files as [|f fs].
      * destruct stdin as [buf|]; [|simpl; discriminate].
        apply noflag_bind; [apply noflag_lift | intros; simpl; discriminate].
      * apply noflag_bind; [apply noflag_for_files | intros; simpl; discriminate].
    + replace (list_eqb (str "-r") (str "-r")) with true by reflexivity. cbv beta iota zeta.
      replace (negb (list_eqb (str "-E") (str "-E"))) with false by reflexivity.
      destruct (next_arg rest) as [pat roots]. cbv beta iota.
      destruct roots as [|r rs]; [simpl; discriminate|].
      apply noflag_bind; [apply noflag_for_roots | intros; simpl; discriminate].
  - intros Hn. destruct args as [|p0 [|h a2]]; [reflexivity | reflexivity |].
    unfold cli. cbn [next_arg]. destruct (list_eqb h (str "-r")) eqn:Er.
    + apply list_eqb_true in Er. subst h. destruct a2 as [|h2 a3]; cbn [next_arg];
        [reflexivity|].
      destruct (list_eqb h2 (str "-E")) eqn:Ee; [|reflexivity].
      apply list_eqb_true in Ee. subst h2. exfalso. apply Hn. exists p0, a3. right. reflexivity.
    + destruct (list_eqb h (str "-E")) eqn:Ee; [|reflexivity].
      apply list_eqb_true in Ee. subst h. exfalso. apply Hn. exists p0, a2. left. reflexivity.
Qed.

(** *** Exit status and output *)

Lemma printed_ret : forall a, printed_iff a (ret a).
Proof.
  intros a. unfold printed_iff, ret.
  split; [intros H; left; exact H | intros [H|H]; [exact H | congruence]].
Qed.

Lemma printed_bind : forall any (m : io bool) (k : bool -> io bool),
  printed_iff false m -> (forall a : bool, printed_iff (if a then true else any) (k a)) ->
  printed_iff any (io_bind m k).
Proof.
  intros any [o1 [[a|e]| |]] k Hm Hk; simpl; auto. specialize (Hk a).
  destruct (k a) as [o2 [[b|e]| |]]; simpl in *; auto.
  rewrite Hk. simpl in Hm.
  assert (Ho : o1 ++ o2 <> [] <-> o1 <> [] \/ o2 <> []).
  { split.
    - intros H. destruct o1; [right; exact H | left; discriminate].
    - intros [H|H] Hx; apply app_eq_nil in Hx as [H1 H2]; contradiction. }
  rewrite Ho. destruct a.
  - assert (o1 <> []) by (destruct (proj1 Hm eq_refl); [discriminate | assumption]).
    split; [intros _; right; left; assumption | intros _; left; reflexivity].
  - assert (Hn : o1 = []) by (destruct o1; [reflexivity|]; exfalso;
                              assert (false = true) by (apply Hm; right; discriminate); discriminate).
    subst o1. split.
    + intros [H|H]; [left; exact H | right; right; exact H].
    + intros [H|[H|H]]; [left; exact H | congruence | right; exact H].
Qed.

Lemma printed_lift : forall ism content prefix,
  printed_iff false (lift_grep (grep_content ism content prefix)).
Proof.
  intros ism content prefix.
  destruct (grep_content ism content prefix) as [o [[b|e]| |]] eqn:E; simpl; auto.
  apply grep_content_printed_aux in E. rewrite E.
  split; [intros H; right; exact H | intros [H|H]; [discriminate | exact H]].
Qed.

Lemma printed_gfwl : forall fuel c pat lab, printed_iff false (grep_file_with_label fuel c pat lab).
Proof. intros fuel [c|] pat lab; [apply printed_lift | exact I]. Qed.

Lemma printed_run_items : forall fuel lb items pat any,
  printed_iff any (run_items fuel lb items pat any).
Proof.
  intros fuel lb items pat. induction items as [|[rel c|] items IH]; intros any; cbn [run_items].
  - apply printed_ret.
  - apply printed_bind; [apply printed_gfwl | intros; apply IH].
  - exact I.
Qed.

Lemma printed_grep_dir : forall lookup fuel root pat,
  printed_iff false (grep_dir lookup fuel root pat).
Proof.
  intros lookup fuel root pat. unfold grep_dir. cbv zeta.
  destruct (lookup root) as [[c|d|]|].
  - apply printed_bind; [apply printed_gfwl | intros a; apply printed_ret].
  - rewrite walk_items. apply printed_run_items.
  - apply printed_ret.
  - apply printed_ret.
Qed.

Lemma printed_for_roots : forall lookup fuel roots pat any,
  printed_iff any (for_roots lookup fuel roots pat any).
Proof.
  intros lookup fuel roots pat. induction roots as [|r rs IH]; intros any; cbn [for_roots].
  - apply printed_ret.
  - apply printed_bind; [apply printed_grep_dir | intros; apply IH].
Qed.

Lemma printed_for_files : forall rf fuel files pat prefix any,
  printed_iff any (for_files rf fuel files pat prefix any).
Proof.
  intros rf fuel files pat prefix. induction files as [|f fs IH]; intros any; cbn [for_files].
  - apply printed_ret.
  - apply printed_bind; [|intros; apply IH].
    unfold grep_file. destruct (rf f); [apply printed_lift | exact I].
Qed.

Lemma printed_exit : forall m o code,
  printed_iff false m -> io_bind m (fun a => ret (exit_code a)) = (o, Done (COk code)) ->
  (code = 0 /\ o <> []) \/ (code = 1 /\ o = []).
Proof.
  intros [o1 [[a|e]| |]] o code Hm H; simpl in H; try discriminate.
  injection H as <- <-. rewrite app_nil_r. simpl in Hm. destruct a; simpl.
  - left. split; [reflexivity|]. destruct (proj1 Hm eq_refl); [discriminate | assumption].
  - right. split; [reflexivity|]. destruct o1; [reflexivity|]. exfalso.
    assert (false = true) by (apply Hm; right; discriminate). discriminate.
Qed.

Lemma cli_code : forall stdin rf lookup fuel args o code,
  cli stdin rf lookup fuel args = (o, Done (COk code)) ->
  (code = 0 /\ o <> []) \/ (code = 1 /\ o = []).
Proof.
  intros stdin rf lookup fuel args o code. unfold cli.
  destruct (next_arg args) as [p0 a1]. destruct (next_arg a1) as [h a2].
  destruct (list_eqb h (str "-r")).
  - destruct (next_arg a2) as [h' a3]. cbv beta iota zeta.
    destruct (negb (list_eqb h' (str "-E"))); [intros H; discriminate H|].
    destruct (next_arg a3) as [pat rest]. cbv beta iota.
    destruct rest as [|r rs].
    + intros H. injection H as <- <-. right. split; reflexivity.
    + apply printed_exit, printed_for_roots.
  - cbv beta iota zeta.
    destruct (negb (list_eqb h (str "-E"))); [intros H; discriminate H|].
    destruct (next_arg a2) as [pat rest]. cbv beta iota.
    destruct rest as [|f fs].
    + destruct stdin as [buf|]; [apply printed_exit, printed_lift | intros H; discriminate H].
    + apply printed_exit, printed_for_files.
Qed.

(** X12. The program exits with status 0 or 1 (when it does not panic):
    0 exactly when it printed a line on stdout and reported no error on
    stderr. An error gives status 1 whatever was printed before it. *)
Theorem main_exit_status : forall stdin rf lookup fuel args out code err,
  main stdin rf lookup fuel args = (out, Done (code, err)) ->
  (code = 0 \/ code = 1) /\ (code = 0 <-> err = None /\ out <> []).
Proof.
  intros stdin rf lookup fuel args out code err H. unfold main in H.
  destruct (cli stdin rf lookup fuel args) as [o r] eqn:E.
  destruct r as [[c|e]| |]; try discriminate; injection H as <- <- <-.
  - destruct (cli_code _ _ _ _ _ _ _ E) as [[-> Ho]|[-> Ho]].
    + split; [left; reflexivity|]. split; [intros _; split; [reflexivity | exact Ho] | reflexivity].
    + split; [right; reflexivity|]. split; [discriminate | intros [_ Hx]; contradiction].
  - split; [right; reflexivity|]. split; [discriminate | intros [Hx _]; discriminate].
Qed.

Lemma main_exit_status_witness :
  main (Some (str "ab")) (fun _ => None) (fun _ => None) 20 [str "grep"; str "-E"; str "a"]
    = (str "ab
", Done (0, None)) /\
  ((0 = 0 \/ 0 = 1) /\ (0 = 0 <-> @None cerr = None /\ str "ab
" <> [])).
Proof.
  split; [vm_compute; reflexivity|].
  apply (main_exit_status (Some (str "ab")) (fun _ => None) (fun _ => None) 20
           [str "grep"; str "-E"; str "a"]).
  vm_compute. reflexivity.
Defined.

(** *** Files given on the command line *)

Lemma for_files_ok : forall (rf : list char -> option (list char)) fuel pat (prefix : bool)
    (files : list (list char)) (outs : list (list char * bool)) any,
  Forall2 (fun file ob => exists c, rf file = Some c /\
    grep_content (ism fuel pat) c (if prefix then Some file else None)
      = (fst ob, Done (Ok (snd ob)))) files outs ->
  for_files rf fuel files pat prefix any =
  (concat (map fst outs), Done (COk (any || existsb snd outs))).
Proof.
  intros rf fuel pat prefix files outs any H. revert any.
  induction H as [|file ob files outs [c [Hc Hg]] Hr IH]; intros any; cbn [for_files].
  - simpl. rewrite orb_false_r. reflexivity.
  - unfold grep_file at 1. rewrite Hc, Hg. cbn [lift_grep io_bind]. rewrite IH.
    simpl. destruct (snd ob), any; reflexivity.
Qed.

Lemma for_files_stop : forall (rf : list char -> option (list char)) fuel pat (prefix : bool)
    (pre : list (list char)) file post (outs : list (list char * bool)) any,
  Forall2 (fun file ob => exists c, rf file = Some c /\
    grep_content (ism fuel pat) c (if prefix then Some file else None)
      = (fst ob, Done (Ok (snd ob)))) pre outs ->
  rf file = None ->
  for_files rf fuel (pre ++ file :: post) pat prefix any = (concat (map fst outs), Done (CErr EIo)).
Proof.
  intros rf fuel pat prefix pre file post outs any H Hf. revert any.
  induction H as [|x ob xs outs [c [Hc Hg]] Hr IH]; intros any; cbn [for_files app].
  - unfold grep_file at 1. rewrite Hf. reflexivity.
  - unfold grep_file at 1. rewrite Hc, Hg. cbn [lift_grep io_bind]. rewrite IH. reflexivity.
Qed.

Lemma cli_files_shape : forall stdin rf lookup fuel p0 pat files, files <> [] ->
  cli stdin rf lookup fuel (p0 :: str "-E" :: pat :: files) =
  io_bind (for_files rf fuel files pat (1 <? length files) false) (fun any => ret (exit_code any)).
Proof. intros stdin rf lookup fuel p0 pat [|f fs] H; [congruence | reflexivity]. Qed.

(** X13. With files named on the command line, all readable and all
    searched without error, the program prints the output of each file's
    search in the order the files are named, each matching line after
    [file:] exactly when two or more files are named, and returns 0
    exactly when some file matched. *)
Theorem cli_files_output : forall stdin (rf : list char -> option (list char)) lookup fuel p0 pat
    (files : list (list char)) (outs : list (list char * bool)),
  files <> [] ->
  Forall2 (fun file ob => exists c, rf file = Some c /\
    grep_content (fun ln => is_match fuel ln pat) c
      (if 1 <? length files then Some file else None) = (fst ob, Done (Ok (snd ob)))) files outs ->
  cli stdin rf lookup fuel (p0 :: str "-E" :: pat :: files) =
  (concat (map fst outs), Done (COk (exit_code (existsb snd outs)))).
Proof.
  intros stdin rf lookup fuel p0 pat files outs Hne H.
  rewrite cli_files_shape by exact Hne.
  rewrite (for_files_ok rf fuel pat _ files outs false H). simpl. rewrite app_nil_r. reflexivity.
Qed.

Lemma cli_files_output_witness :
  [str "f"; str "g"] <> [] /\
  Forall2 (fun file ob => exists c,
    (fun f => if list_eqb f (str "f") then Some (str "ab") else Some (str "cd")) file = Some c /\
    grep_content (fun ln => is_match 20 ln (str "b")) c
      (if 1 <? length [str "f"; str "g"] then Some file else None) = (fst ob, Done (Ok (snd ob))))
    [str "f"; str "g"] [(str "f:ab
", true); ([], false)] /\
  cli None (fun f => if list_eqb f (str "f") then Some (str "ab") else Some (str "cd"))
    (fun _ => None) 20 [str "grep"; str "-E"; str "b"; str "f"; str "g"] =
  (concat (map fst [(str "f:ab
", true); ([], false)]),
   Done (COk (exit_code (existsb snd [(str "f:ab
", true); ([], false)])))).
Proof.
  assert (Hne : [str "f"; str "g"] <> []) by discriminate.
  assert (H : Forall2 (fun file ob => exists c,
    (fun f => if list_eqb f (str "f") then Some (str "ab") else Some (str "cd")) file = Some c /\
    grep_content (fun ln => is_match 20 ln (str "b")) c
      (if 1 <? length [str "f"; str "g"] then Some file else None) = (fst ob, Done (Ok (snd ob))))
    [str "f"; str "g"] [(str "f:ab
", true); ([], false)]).
  { constructor; [|constructor; [|constructor]]; eexists; split; try reflexivity;
      vm_compute; reflexivity. }
  split; [exact Hne|]. split; [exact H|].
  exact (cli_files_output None _ (fun _ => None) 20 (str "grep") (str "b") _ _ Hne H).
Defined.

(** X14. In files mode, the first file that cannot be read stops the
    program with an I/O error: what the files named before it printed
    stays printed, and the files after it are not read. *)
Theorem cli_files_stop : forall stdin (rf : list char -> option (list char)) lookup fuel p0 pat
    (pre : list (list char)) file post (outs : list (list char * bool)),
  Forall2 (fun f ob => exists c, rf f = Some c /\
    grep_content (fun ln => is_match fuel ln pat) c
      (if 1 <? length (pre ++ file :: post) then Some f else None)
      = (fst ob, Done (Ok (snd ob)))) pre outs ->
  rf file = None ->
  cli stdin rf lookup fuel (p0 :: str "-E" :: pat :: pre ++ file :: post) =
  (concat (map fst outs), Done (CErr EIo)).
Proof.
  intros stdin rf lookup fuel p0 pat pre file post outs H Hf.
  rewrite cli_files_shape by (destruct pre; discriminate).
  rewrite (for_files_stop rf fuel pat _ pre file post outs false H Hf). reflexivity.
Qed.

Lemma cli_files_stop_witness :
  Forall2 (fun f ob => exists c,
    (fun f => if list_eqb f (str "f") then Some (str "ab") else None) f = Some c /\
    grep_content (fun ln => is_match 20 ln (str "b")) c
      (if 1 <? length ([str "f"] ++ str "g" :: [str "h"]) then Some f else None)
      = (fst ob, Done (Ok (snd ob)))) [str "f"] [(str "f:ab
", true)] /\
  (fun f => if list_eqb f (str "f") then Some (str "ab") else None) (str "g") = None /\
  cli None (fun f => if list_eqb f (str "f") then Some (str "ab") else None) (fun _ => None) 20
    (str "grep" :: str "-E" :: str "b" :: [str "f"] ++ str "g" :: [str "h"]) =
  (concat (map fst [(str "f:ab
", true)]), Done (CErr EIo)).
Proof.
  assert (H : Forall2 (fun f ob => exists c,
    (fun f => if list_eqb f (str "f") then Some (str "ab") else None) f = Some c /\
    grep_content (fun ln => is_match 20 ln (str "b")) c
      (if 1 <? length ([str "f"] ++ str "g" :: [str "h"]) then Some f else None)
      = (fst ob, Done (Ok (snd ob)))) [str "f"] [(str "f:ab
", true)]).
  { constructor; [|constructor]. eexists; split; [reflexivity | vm_compute; reflexivity]. }
  assert (Hf : (fun f => if list_eqb f (str "f") then Some (str "ab") else None) (str "g") = None)
    by reflexivity.
  split; [exact H|]. split; [exact Hf|].
  exact (cli_files_stop None _ (fun _ => None) 20 (str "grep") (str "b") [str "f"] (str "g") [str "h"]
           _ H Hf).
Defined.

(** *** Recursive search *)

Lemma for_roots_missing : forall lookup fuel roots pat any,
  Forall (fun r => match lookup r with Some (DirN _) | Some (FileN _) => False | _ => True end) roots ->
  for_roots lookup fuel roots pat any = ret any.
Proof.
  intros lookup fuel roots pat any H. revert any.
  induction H as [|r rs Hr Hrs IH]; intros any; cbn [for_roots]; [reflexivity|].
  unfold grep_dir at 1. cbv zeta.
  destruct (lookup r) as [[c|d|]|]; try contradiction; rewrite io_bind_ret_l; apply IH.
Qed.

Lemma for_roots_skip : forall lookup fuel pre r post pat any,
  match lookup r with Some (DirN _) | Some (FileN _) => False | _ => True end ->
  for_roots lookup fuel (pre ++ r :: post) pat any = for_roots lookup fuel (pre ++ post) pat any.
Proof.
  intros lookup fuel pre r post pat any Hr. revert any.
  induction pre as [|q pre IH]; intros any; cbn [app for_roots].
  - unfold grep_dir at 1. cbv zeta.
    destruct (lookup r) as [[c|d|]|]; try contradiction; rewrite io_bind_ret_l; reflexivity.
  - apply io_bind_ext. intros b. apply IH.
Qed.

(** X15. With [-r], a root that is neither a directory nor a file (a
    missing path included) is skipped silently wherever it stands among
    the roots: removing it changes neither the output nor the result.
    When no root is a directory or a file, also when no root is given,
    the program prints nothing and returns 1 without an error, without
    reading stdin and without parsing the pattern. *)
Theorem cli_recursive_no_roots :
  (forall stdin rf lookup fuel p0 pat pre r post,
     match lookup r with Some (DirN _) | Some (FileN _) => False | _ => True end ->
     cli stdin rf lookup fuel (p0 :: str "-r" :: str "-E" :: pat :: pre ++ r :: post) =
     cli stdin rf lookup fuel (p0 :: str "-r" :: str "-E" :: pat :: pre ++ post)) /\
  (forall stdin rf lookup fuel p0 pat roots,
     Forall (fun r => match lookup r with Some (DirN _) | Some (FileN _) => False | _ => True end) roots ->
     cli stdin rf lookup fuel (p0 :: str "-r" :: str "-E" :: pat :: roots) = ([], Done (COk 1))).
Proof.
  split.
  - intros stdin rf lookup fuel p0 pat pre r post Hr.
    assert (E : forall roots, roots <> [] ->
                cli stdin rf lookup fuel (p0 :: str "-r" :: str "-E" :: pat :: roots) =
                io_bind (for_roots lookup fuel roots pat false) (fun any => ret (exit_code any)))
      by (intros [|x xs] Hx; [congruence | reflexivity]).
    rewrite E by (destruct pre; discriminate).
    rewrite for_roots_skip by exact Hr.
    destruct (pre ++ post) as [|x xs] eqn:Epp.
    + reflexivity.
    + rewrite E by discriminate. reflexivity.
  - intros stdin rf lookup fuel p0 pat roots H. destruct roots as [|r rs]; [reflexivity|].
    assert (E : cli stdin rf lookup fuel (p0 :: str "-r" :: str "-E" :: pat :: r :: rs) =
                io_bind (for_roots lookup fuel (r :: rs) pat false) (fun any => ret (exit_code any)))
      by reflexivity.
    rewrite E, for_roots_missing by exact H. reflexivity.
Qed.

Lemma cli_recursive_no_roots_witness :
  cli None (fun _ => Some (str "bar")) (fun r => if list_eqb r (str "f") then Some (FileN (Some (str "bar"))) else None) 10
    (str "grep" :: str "-r" :: str "-E" :: str "bar" :: [str "f"] ++ str "missing" :: [str "f"]) =
  cli None (fun _ => Some (str "bar")) (fun r => if list_eqb r (str "f") then Some (FileN (Some (str "bar"))) else None) 10
    (str "grep" :: str "-r" :: str "-E" :: str "bar" :: [str "f"] ++ [str "f"]) /\
  cli None (fun _ => Some (str "bar")) (fun r => if list_eqb r (str "f") then Some (FileN (Some (str "bar"))) else None) 10
    (str "grep" :: str "-r" :: str "-E" :: str "bar" :: [str "f"] ++ [str "f"]) =
    (str "f:bar
f:bar
", Done (COk 0)) /\
  cli None (fun _ => None) (fun _ => None) 10
    (str "grep" :: str "-r" :: str "-E" :: str "a\" :: [str "missing"]) = ([], Done (COk 1)).
Proof.
  split; [|split].
  - apply (proj1 cli_recursive_no_roots). exact I.
  - vm_compute. reflexivity.
  - apply (proj2 cli_recursive_no_roots). constructor; [exact I | constructor].
Defined.

Lemma dec_aux_app : forall f k acc, dec_aux f k acc = dec_aux f k [] ++ acc.
Proof.
  induction f as [|f IH]; intros k acc; [reflexivity|].
  simpl. destruct (k <? 10)%N; [reflexivity|].
  rewrite (IH _ (_ :: acc)), (IH _ [_]), <- app_assoc. reflexivity.
Qed.

Lemma dec_aux_digits : forall f k, forallb is_ascii_digit (dec_aux f k []) = true.
Proof.
  induction f as [|f IH]; intros k; [reflexivity|].
  assert (Hd : is_ascii_digit (48 + k mod 10)%N = true).
  { unfold is_ascii_digit. pose proof (N.mod_lt k 10 ltac:(discriminate)).
    generalize dependent (k mod 10)%N. intros m Hm.
    apply andb_true_intro; split; apply N.leb_le; lia. }
  change (dec_aux (S f) k [])
    with (if (k <? 10)%N then [(48 + k mod 10)%N]
          else dec_aux f (k / 10) [(48 + k mod 10)%N]).
  destruct (k <? 10)%N.
  - cbn [forallb]. rewrite Hd. reflexivity.
  - rewrite dec_aux_app, forallb_app, IH. cbn [forallb]. rewrite Hd. reflexivity.
Qed.

Lemma dec_aux_value : forall f k, (k < 2 ^ N.of_nat f)%N ->
  fold_left (fun acc d => (acc * 10 + (d - 48))%N) (dec_aux (S f) k []) 0%N = k.
Proof.
  induction f as [|f IH]; intros k Hk.
  - simpl in Hk. assert (k = 0%N) as -> by lia. reflexivity.
  - change (dec_aux (S (S f)) k [])
      with (if (k <? 10)%N then [(48 + k mod 10)%N]
            else dec_aux (S f) (k / 10) [(48 + k mod 10)%N]).
    destruct (k <? 10)%N eqn:E.
    + apply N.ltb_lt in E. rewrite N.mod_small by exact E. cbn [fold_left]. lia.
    + rewrite dec_aux_app, fold_left_app, IH.
      * cbn [fold_left]. pose proof (N.div_mod k 10 ltac:(discriminate)).
        generalize dependent (k mod 10)%N. generalize dependent (k / 10)%N.
        intros q m Hk'. lia.
      * apply N.Div0.div_lt_upper_bound.
        rewrite Nat2N.inj_succ, N.pow_succ_r' in Hk.
        generalize dependent (2 ^ N.of_nat f)%N. intros w Hw. lia.
Qed.

Lemma span_digits_close : forall ds r,
  forallb is_ascii_digit ds = true ->
  span_digits (ds ++ RBRACE :: r) = (ds, RBRACE :: r).
Proof.
  induction ds as [|c ds IH]; intros r H; [reflexivity|].
  simpl in H. apply andb_true_iff in H as [Hc H].
  simpl. rewrite Hc, IH by exact H. reflexivity.
Qed.

Lemma dec_cons : forall k, exists d t, dec k = d :: t.
Proof.
  intros k. unfold dec. simpl. destruct (k <? 10)%N.
  - eauto.
  - rewrite dec_aux_app. destruct (dec_aux _ _ []) as [|d t]; simpl; eauto.
Qed.

(** X16: [elems], lines 118-131: a repetition [{k}] with [k] written in
    decimal gives the node repeated [k] times when [k < 2^64] and the
    [usize] parse error otherwise; [{}] is that parse error too. *)
Theorem quant_repetition_count : forall n k r,
  quant n (LBRACE :: dec k ++ RBRACE :: r) =
    (if (k <? 2 ^ 64)%N then Ok (Rep n (N.to_nat k), r) else Err ParseIntError) /\
  quant n (LBRACE :: RBRACE :: r) = Err ParseIntError.
Proof.
  intros n k r. split; [|reflexivity].
  unfold quant. cbv beta iota zeta. rewrite N.eqb_refl.
  rewrite span_digits_close by apply dec_aux_digits.
  cbv beta iota zeta. rewrite N.eqb_refl.
  unfold parse_usize. destruct (dec_cons k) as [d [t E]].
  rewrite E. cbv beta iota zeta. rewrite <- E.
  unfold dec. rewrite dec_aux_value.
  - destruct (k <? 2 ^ 64)%N; reflexivity.
  - rewrite N2Nat.id. apply N.size_gt.
Qed.

Lemma span_digits_stop : forall ds rest,
  forallb is_ascii_digit ds = true ->
  match rest with c :: _ => is_ascii_digit c = false | [] => True end ->
  span_digits (ds ++ rest) = (ds, rest).
Proof.
  induction ds as [|c ds IH]; intros rest H Hr.
  - destruct rest as [|c rest]; [reflexivity|]. simpl. rewrite Hr. reflexivity.
  - simpl in H. apply andb_true_iff in H as [Hc H].
    simpl. rewrite Hc, IH by assumption. reflexivity.
Qed.

(** X17: [elems], lines 118-127: a [{] whose digits are not followed by
    [}] (the input ends, or another non-digit comes) is the invalid
    repetition error, whatever the node before it. *)
Theorem quant_repetition_unclosed : forall n ds rest,
  forallb is_ascii_digit ds = true ->
  match rest with c :: _ => is_ascii_digit c = false /\ c <> RBRACE | [] => True end ->
  quant n (LBRACE :: ds ++ rest) = Err InvalidRepetition.
Proof.
  intros n ds rest Hds Hr.
  unfold quant. cbv beta iota zeta. rewrite N.eqb_refl.
  rewrite span_digits_stop; [| exact Hds | destruct rest; [exact I | apply Hr]].
  destruct rest as [|c rest]; [reflexivity|].
  destruct Hr as [_ Hc]. apply N.eqb_neq in Hc. rewrite Hc. reflexivity.
Qed.

Lemma quant_repetition_unclosed_witness :
  quant Digit (LBRACE :: str "12" ++ str "x") = Err InvalidRepetition.
Proof.
  apply quant_repetition_unclosed; [reflexivity | split; [reflexivity | discriminate]].
Defined.

(** ** C8: the grouping round trip *)

Ltac neq_consts :=
  match goal with
  | H : N.eqb ?a ?b = true |- _ => apply N.eqb_eq in H; subst a
  end.

Lemma collect_group_body : forall p d rest, group_body p d = true ->
  collect_group (p ++ RPAREN :: rest) d = (p, rest).
Proof.
  induction p as [|c p IH]; intros d rest H.
  - simpl in H. apply Nat.eqb_eq in H. subst d. reflexivity.
  - cbn [group_body] in H. cbn [app collect_group].
    destruct (N.eqb c LPAREN) eqn:E1; [rewrite IH by exact H; reflexivity|].
    destruct (N.eqb c RPAREN) eqn:E2.
    + destruct d as [|d']; [discriminate|]. rewrite IH by exact H. reflexivity.
    + destruct (N.eqb c BAR).
      * apply andb_true_iff in H as [_ H]. rewrite IH by exact H. reflexivity.
      * rewrite IH by exact H. reflexivity.
Qed.

Lemma split_bar_body : forall p d cur, group_body p d = true ->
  split_bar p (Z.of_nat d) cur = [cur ++ p].
Proof.
  induction p as [|c p IH]; intros d cur H.
  - simpl. rewrite app_nil_r. reflexivity.
  - cbn [group_body] in H. cbn [split_bar].
    destruct (N.eqb c LPAREN) eqn:E1.
    + neq_consts. cbn [N.eqb Pos.eqb LPAREN BAR]. rewrite andb_false_r.
      rewrite <- Nat2Z.inj_succ, IH by exact H. rewrite <- app_assoc. reflexivity.
    + destruct (N.eqb c RPAREN) eqn:E2.
      * neq_consts. cbn [N.eqb Pos.eqb RPAREN BAR LPAREN]. rewrite andb_false_r.
        destruct d as [|d']; [discriminate|].
        replace (Z.pred (Z.of_nat (S d'))) with (Z.of_nat d') by lia.
        rewrite IH by exact H. rewrite <- app_assoc. reflexivity.
      * destruct (N.eqb c BAR) eqn:E3.
        -- apply andb_true_iff in H as [Hd H]. apply negb_true_iff, Nat.eqb_neq in Hd.
           replace (Z.eqb (Z.of_nat d) 0) with false by (symmetry; apply Z.eqb_neq; lia).
           simpl andb. cbv beta iota. rewrite IH by exact H. rewrite <- app_assoc. reflexivity.
        -- rewrite andb_false_r. cbv beta iota. rewrite IH by exact H.
           rewrite <- app_assoc. reflexivity.
Qed.

Lemma quant_shift : forall n cs,
  quant (shift n) cs = match quant n cs with Ok (n', r) => Ok (shift n', r) | Err e => Err e end.
Proof.
  intros n cs. unfold quant. destruct cs as [|q r]; [reflexivity|].
  destruct (N.eqb q PLUS); [reflexivity|]. destruct (N.eqb q QMARK); [reflexivity|].
  destruct (N.eqb q STAR); [reflexivity|]. destruct (N.eqb q LBRACE); [|reflexivity].
  destruct (span_digits r) as [ds [|x rest']]; [reflexivity|].
  destruct (N.eqb x RBRACE); [|reflexivity]. destruct (parse_usize ds); reflexivity.
Qed.

Lemma branches_shift : forall el s g,
  (forall seg g', el seg (S g') = eshift (el seg g')) ->
  branches el s (S g) =
  match branches el s g with
  | Done (Ok (brs, g2)) => Done (Ok (map (map shift) brs, S g2))
  | o => o
  end.
Proof.
  intros el s g Hel. unfold branches. generalize (split_bar s 0 []) as segs.
  intros segs. revert g. induction segs as [|seg segs IH]; intros g; [reflexivity|].
  cbn [rbind]. rewrite Hel.
  destruct (el seg g) as [[[[ns r] g1]|e]| |]; cbn [eshift rbind obind]; try reflexivity.
  rewrite IH. destruct (_ segs g1) as [[[out g2]|e]| |]; reflexivity.
Qed.

Lemma escape_shift : forall e, shift (escape e) = escape e.
Proof.
  intros e. unfold escape.
  destruct (N.eqb e (ch "d")); [reflexivity|]. destruct (N.eqb e (ch "w")); [reflexivity|].
  destruct ((49 <=? e)%N && (e <=? 57)%N); reflexivity.
Qed.

Lemma class_shift : forall cs n r, class cs = Ok (n, r) -> shift n = n.
Proof.
  intros cs n r. unfold class.
  destruct (match cs with c :: r => if N.eqb c CARET then (true, r) else (false, cs)
            | [] => (false, cs) end) as [neg cs1].
  destruct (class_members cs1) as [s' [|x rest]]; [discriminate|].
  intros H. injection H as <- _. destruct neg; reflexivity.
Qed.

Lemma atom_shift : forall el c cs1 g,
  (forall seg g', el seg (S g') = eshift (el seg g')) ->
  atom el c cs1 (S g) =
  match atom el c cs1 g with
  | Done (Ok (n, cs2, g')) => Done (Ok (shift n, cs2, S g'))
  | o => o
  end.
Proof.
  intros el c cs1 g Hel. unfold atom.
  destruct (N.eqb c BSLASH).
  { destruct cs1 as [|e cs2]; [reflexivity|]. rewrite escape_shift. reflexivity. }
  destruct (N.eqb c LBRACK).
  { destruct (class cs1) as [[n cs2]|e] eqn:E; [|reflexivity].
    rewrite (class_shift _ _ _ E). reflexivity. }
  destruct (N.eqb c LPAREN).
  { destruct (collect_group cs1 0) as [buf cs2].
    rewrite (branches_shift el buf (S g) Hel).
    destruct (branches el buf (S g)) as [[[brs g2]|e]| |]; reflexivity. }
  destruct (N.eqb c DOT); reflexivity.
Qed.

Lemma elems_shift : forall f cs g, elems f cs (S g) = eshift (elems f cs g).
Proof.
  induction f as [|f IH]; intros cs g; [reflexivity|].
  destruct cs as [|c cs1]; [reflexivity|]. cbn [elems].
  destruct (N.eqb c RPAREN); [reflexivity|].
  rewrite (atom_shift (elems f) c cs1 g IH).
  destruct (atom (elems f) c cs1 g) as [[[[n cs2] g1]|e]| |]; cbn [rbind obind]; try reflexivity.
  rewrite quant_shift. destruct (quant n cs2) as [[n' cs3]|e]; [|reflexivity].
  rewrite IH. destruct (elems f cs3 g1) as [[[[out rest] g2]|e]| |]; reflexivity.
Qed.

Lemma branches_ext : forall el1 el2 s g,
  (forall seg g', el1 seg g' <> NoFuel -> el2 seg g' = el1 seg g') ->
  branches el1 s g <> NoFuel -> branches el2 s g = branches el1 s g.
Proof.
  intros el1 el2 s g Hel. unfold branches. generalize (split_bar s 0 []) as segs.
  intros segs. revert g. induction segs as [|seg segs IH]; intros g Hn; [reflexivity|].
  destruct (el1 seg g) as [[[[ns r] g1]|e]| |] eqn:E; cbn [rbind obind] in Hn;
    [| | | congruence];
    rewrite Hel by (rewrite E; discriminate); rewrite E; cbn [rbind obind]; try reflexivity.
  rewrite IH; [reflexivity|].
  intros H. rewrite H in Hn. apply Hn. reflexivity.
Qed.

Lemma elems_mono : forall f f' cs g, f <= f' -> elems f cs g <> NoFuel ->
  elems f' cs g = elems f cs g.
Proof.
  induction f as [|f IH]; intros f' cs g Hle Hn; [simpl in Hn; congruence|].
  destruct f' as [|f']; [lia|].
  destruct cs as [|c cs1]; [reflexivity|]. cbn [elems] in Hn |- *.
  destruct (N.eqb c RPAREN); [reflexivity|].
  assert (Ha : atom (elems f) c cs1 g <> NoFuel)
    by (intros H; rewrite H in Hn; apply Hn; reflexivity).
  assert (Ea : atom (elems f') c cs1 g = atom (elems f) c cs1 g).
  { unfold atom in Ha |- *.
    destruct (N.eqb c BSLASH); [reflexivity|]. destruct (N.eqb c LBRACK); [reflexivity|].
    destruct (N.eqb c LPAREN); [|reflexivity].
    destruct (collect_group cs1 0) as [buf cs2].
    rewrite (branches_ext (elems f) (elems f')); [reflexivity | |].
    - intros seg g' Hs. apply IH; [lia | exact Hs].
    - intros H. rewrite H in Ha. apply Ha. reflexivity. }
  rewrite Ea.
  destruct (atom (elems f) c cs1 g) as [[[[n cs2] g1]|e]| |]; cbn [rbind obind] in Hn |- *;
    try reflexivity.
  destruct (quant n cs2) as [[n' cs3]|e]; [|reflexivity].
  rewrite (IH f'); [reflexivity | lia |].
  intros H. rewrite H in Hn. apply Hn. reflexivity.
Qed.

Lemma parse_wrap : forall p,
  group_body p 0 = true ->
  match p with c :: _ => N.eqb c CARET = false | [] => True end ->
  end_anchor p = false ->
  parse p = rbind (elems (S (length p)) p 0) (fun '(ns, _, _) => Done (Ok (ns, false, false))) /\
  parse (LPAREN :: p ++ [RPAREN]) =
    rbind (elems (S (length p)) p 0)
      (fun '(ns, _, _) => Done (Ok ([Cap 1 [map shift ns]], false, false))).
Proof.
  intros p Hg Hc He. split.
  - apply (parse_unanchored_end p false p); [|exact He].
    destruct p as [|c q]; [reflexivity|]. rewrite Hc. reflexivity.
  - rewrite (parse_unanchored_end _ false (LPAREN :: p ++ [RPAREN])); [|reflexivity|].
    2:{ unfold end_anchor. change (LPAREN :: p ++ [RPAREN]) with ((LPAREN :: p) ++ [RPAREN]).
        rewrite rev_unit. reflexivity. }
    simpl length. rewrite length_app. simpl length.
    replace (length p + 1) with (S (length p)) by lia.
    remember (elems (S (length p)) p 0) as o eqn:Ho.
    remember (S (S (length p))) as G eqn:HG.
    cbn [elems]. unfold atom. cbn [N.eqb Pos.eqb LPAREN RPAREN BSLASH LBRACK].
    rewrite collect_group_body by exact Hg. cbv beta iota zeta.
    pose proof (split_bar_body p 0 [] Hg) as Hs. simpl in Hs.
    unfold branches. rewrite Hs.
    rewrite elems_shift.
    rewrite (elems_mono (S (length p)) G p 0) by (lia || (apply elems_total; lia)).
    rewrite <- Ho. subst G.
    destruct o as [[[[ns r] g1]|e]| |]; reflexivity.
Qed.


Lemma xok_mono : forall X p p', xok X p -> p <= p' -> xok X p'.
Proof.
  intros X p p' [H|(sl & p0 & H & Hle)] Hp; [left; exact H|].
  right. exists sl, p0. split; [exact H | lia].
Qed.

Lemma pnode_cases : forall h pos, (pnode_ok h = true \/ exists slot st, h = CapEnd slot st /\ st <= pos) ->
  match h with CapEnd _ st => st <= pos | _ => pnode_ok h = true end.
Proof.
  intros h pos [Hh | (sl & st & -> & Hle)]; [|exact Hle].
  destruct h; simpl in Hh |- *; try discriminate; exact Hh.
Qed.

Lemma seq_ok_capend : forall pos b id t, forallb pnode_ok b = true -> seq_ok pos t ->
  seq_ok pos (b ++ CapEnd id pos :: t).
Proof.
  intros pos b id t Hb Ht. unfold seq_ok in *. apply Forall_app. split.
  - apply Forall_forall. intros n Hn. left. rewrite forallb_forall in Hb. apply Hb, Hn.
  - constructor; [right; exists id, pos; split; [reflexivity | lia] | exact Ht].
Qed.

Lemma map_shift_capend : forall b id pos t X, id <> 0 ->
  map shift (b ++ CapEnd (id - 1) pos :: t) ++ X = map shift b ++ CapEnd id pos :: map shift t ++ X.
Proof.
  intros b id pos t X Hid. rewrite map_app, <- app_assoc. cbn [map shift app].
  replace (S (id - 1)) with id by lia. reflexivity.
Qed.

Ltac leaf_step IH Ht Hrt Hx H :=
  match goal with
  | |- context [nth_error ?cs ?pos] =>
      destruct (nth_error cs pos) as [y|] eqn:En;
      [ pose proof (nth_error_lt _ _ _ En);
        repeat match goal with |- context [if ?b then _ else _] => destruct b end;
        first
          [ injection H as <-; exists None; split; reflexivity
          | refine (proj1 IH _ _ _ _ _ _ _ _ _ _ _ H);
              [ lia | apply (seq_ok_mono pos); [lia | exact Ht] | exact Hrt
              | apply (xok_mono _ pos); [exact Hx | lia] ] ]
      | injection H as <-; exists None; split; reflexivity ]
  end.

Lemma shift_fwd : forall f,
  (forall pos L cs c c' X r, pos <= length cs -> seq_ok pos L -> forallb ref_free L = true ->
     xok X pos -> match_from f pos L cs c = Done r ->
     exists r', match_from (S f) pos (map shift L ++ X) cs c' = Done r' /\ rfst r r') /\
  (forall pos inner rest cs c c' X r, pos <= length cs -> pnode_ok inner = true ->
     ref_free inner = true -> seq_ok pos rest -> forallb ref_free rest = true -> xok X pos ->
     more f pos inner rest cs c = Done r ->
     exists r', more (S f) pos (shift inner) (map shift rest ++ X) cs c' = Done r' /\ rfst r r').
Proof.
  induction f as [|f IH]; [split; intros; discriminate|].
  assert (Hsafe1 : forall cs i p c0, p <= length cs -> pnode_ok i = true ->
            safe p cs (match_from f p [i] cs c0))
    by (intros; apply (proj1 (match_from_safe f)); [assumption | apply seq_ok_single; assumption]).
  split.
  - intros pos [|h t] cs c c' X r Hpos Hok Hrf Hx H.
    + cbn [match_from] in H. injection H as <-.
      destruct Hx as [-> | (sl & p0 & -> & Hp0)].
      * exists (Some (pos, c')). split; reflexivity.
      * assert (E : (p0 <=? pos) && (pos <=? length cs) = true)
          by (apply andb_true_iff; split; apply Nat.leb_le; lia).
        cbn [map app match_from]. rewrite E. eexists; split; reflexivity.
    + apply seq_ok_cons in Hok as [Hh Ht]. apply pnode_cases in Hh.
      cbn [forallb] in Hrf. apply andb_true_iff in Hrf as [Hrh Hrt].
      change (map shift (h :: t) ++ X) with (shift h :: (map shift t ++ X)).
      remember (S f) as f1 eqn:Hf1 in |- *.
      destruct h as [x| | | |s|s|h|h|h|h count|id brs|sl st|n];
        cbn [shift ref_free pnode_ok] in Hrh, Hh |- *;
        cbn [match_from] in H |- *; subst f1;
        try solve [leaf_step IH Ht Hrt Hx H].
      * (* Opt *)
        destruct (match_from f pos [h] cs c) as [r1| |] eqn:E1; cbn [obind] in H; try discriminate.
        destruct (proj1 IH pos [h] cs c c' [] r1 Hpos (seq_ok_single pos h Hh)
                    ltac:(simpl; rewrite Hrh; reflexivity) (or_introl eq_refl) E1)
          as (r1' & E1' & Hr1).
        cbn [map app] in E1'. rewrite E1'. cbn [obind].
        pose proof (Hsafe1 cs h pos c Hpos Hh) as Hs1. rewrite E1 in Hs1.
        destruct r1 as [[p1 c1]|], r1' as [[p1' c1']|]; unfold rfst in Hr1; simpl in Hr1;
          try discriminate.
        -- injection Hr1 as <-. simpl in Hs1.
           destruct (match_from f p1 t cs c1) as [r2| |] eqn:E2; cbn [obind] in H; try discriminate.
           destruct (proj1 IH p1 t cs c1 c1' X r2 ltac:(lia) (seq_ok_mono pos p1 t ltac:(lia) Ht)
                       Hrt (xok_mono X pos p1 Hx ltac:(lia)) E2) as (r2' & E2' & Hr2).
           rewrite E2'. cbn [obind].
           destruct r2 as [[e2 k2]|], r2' as [[e2' k2']|]; unfold rfst in Hr2; simpl in Hr2;
             try discriminate.
           ++ injection H as <-. injection Hr2 as <-. eexists; split; reflexivity.
           ++ exact (proj1 IH pos t cs c c' X r Hpos Ht Hrt Hx H).
        -- exact (proj1 IH pos t cs c c' X r Hpos Ht Hrt Hx H).
      * (* Plus *)
        exact (proj2 IH pos h t cs c c' X r Hpos Hh Hrh Ht Hrt Hx H).
      * (* Star *)
        destruct (more f pos h t cs c) as [r1| |] eqn:E1; cbn [obind] in H; try discriminate.
        destruct (proj2 IH pos h t cs c c' X r1 Hpos Hh Hrh Ht Hrt Hx E1) as (r1' & E1' & Hr1).
        rewrite E1'. cbn [obind].
        destruct r1 as [[e1 k1]|], r1' as [[e1' k1']|]; unfold rfst in Hr1; simpl in Hr1;
          try discriminate.
        -- injection H as <-. injection Hr1 as <-. eexists; split; reflexivity.
        -- exact (proj1 IH pos t cs c c' X r Hpos Ht Hrt Hx H).
      * (* Rep *)
        revert pos c c' r Hpos Ht Hx H.
        induction count as [|k IHk]; intros p c0 c0' r Hp Ht Hx H; cbv beta iota in H |- *.
        -- exact (proj1 IH p t cs c0 c0' X r Hp Ht Hrt Hx H).
        -- destruct (match_from f p [h] cs c0) as [r1| |] eqn:E1; cbn [obind] in H; try discriminate.
           destruct (proj1 IH p [h] cs c0 c0' [] r1 Hp (seq_ok_single p h Hh)
                       ltac:(simpl; rewrite Hrh; reflexivity) (or_introl eq_refl) E1)
             as (r1' & E1' & Hr1).
           cbn [map app] in E1'. rewrite E1'. cbn [obind].
           pose proof (Hsafe1 cs h p c0 Hp Hh) as Hs1. rewrite E1 in Hs1.
           destruct r1 as [[np nc]|], r1' as [[np' nc']|]; unfold rfst in Hr1; simpl in Hr1;
             try discriminate.
           ++ injection Hr1 as <-. simpl in Hs1.
              exact (IHk np nc nc' r ltac:(lia) (seq_ok_mono p np t ltac:(lia) Ht)
                       (xok_mono X p np Hx ltac:(lia)) H).
           ++ injection H as <-. exists None. split; reflexivity.
      * (* Cap *)
        apply andb_true_iff in Hh as [Hid Hbr]. apply negb_true_iff, Nat.eqb_neq in Hid.
        replace (Nat.eqb id 0) with false in H by (symmetry; apply Nat.eqb_neq; exact Hid).
        replace (S id - 1) with id by lia. cbn [Nat.eqb].
        revert H Hbr Hrh. induction brs as [|b bs IHb]; intros H Hbr Hrh; cbn [map] in H |- *.
        -- injection H as <-. exists None. split; reflexivity.
        -- cbn [forallb] in Hbr, Hrh.
           apply andb_true_iff in Hbr as [Hb Hbs]. apply andb_true_iff in Hrh as [Hrb Hrbs].
           destruct (match_from f pos (b ++ CapEnd (id - 1) pos :: t) cs c) as [r1| |] eqn:E1;
             cbn [obind] in H; try discriminate.
           destruct (proj1 IH pos (b ++ CapEnd (id - 1) pos :: t) cs c c' X r1 Hpos
                       (seq_ok_capend pos b (id - 1) t Hb Ht)
                       ltac:(rewrite forallb_app; simpl; rewrite Hrb, Hrt; reflexivity) Hx E1)
             as (r1' & E1' & Hr1).
           rewrite (map_shift_capend b id pos t X Hid) in E1'.
           rewrite E1'. cbn [obind].
           destruct r1 as [[e1 k1]|], r1' as [[e1' k1']|]; unfold rfst in Hr1; simpl in Hr1;
             try discriminate.
           ++ injection H as <-. injection Hr1 as <-. eexists; split; reflexivity.
           ++ exact (IHb H Hbs Hrbs).
      * (* CapEnd *)
        destruct ((st <=? pos) && (pos <=? length cs)); [|discriminate H].
        exact (proj1 IH pos t cs _ _ X r Hpos Ht Hrt Hx H).
      * (* Ref *)
        discriminate Hrh.
  - intros pos inner rest cs c c' X r Hpos Hi Hri Hr Hrr Hx H.
    remember (S f) as f1 eqn:Hf1 in |- *. cbn [more] in H |- *. subst f1.
    destruct (match_from f pos [inner] cs c) as [r1| |] eqn:E1; cbn [obind] in H; try discriminate.
    destruct (proj1 IH pos [inner] cs c c' [] r1 Hpos (seq_ok_single pos inner Hi)
                ltac:(simpl; rewrite Hri; reflexivity) (or_introl eq_refl) E1)
      as (r1' & E1' & Hr1).
    cbn [map app] in E1'. rewrite E1'. cbn [obind].
    pose proof (Hsafe1 cs inner pos c Hpos Hi) as Hs1. rewrite E1 in Hs1.
    destruct r1 as [[p1 c1]|], r1' as [[p1' c1']|]; unfold rfst in Hr1; simpl in Hr1;
      try discriminate.
    + injection Hr1 as <-. simpl in Hs1.
      destruct (more f p1 inner rest cs c1) as [r2| |] eqn:E2; cbn [obind] in H; try discriminate.
      destruct (proj2 IH p1 inner rest cs c1 c1' X r2 ltac:(lia) Hi Hri
                  (seq_ok_mono pos p1 rest ltac:(lia) Hr) Hrr (xok_mono X pos p1 Hx ltac:(lia)) E2)
        as (r2' & E2' & Hr2).
      rewrite E2'. cbn [obind].
      destruct r2 as [[e2 k2]|], r2' as [[e2' k2']|]; unfold rfst in Hr2; simpl in Hr2;
        try discriminate.
      * injection H as <-. injection Hr2 as <-. eexists; split; reflexivity.
      * exact (proj1 IH p1 rest cs c1 c1' X r ltac:(lia) (seq_ok_mono pos p1 rest ltac:(lia) Hr)
                 Hrr (xok_mono X pos p1 Hx ltac:(lia)) H).
    + injection H as <-. exists None. split; reflexivity.
Qed.

Ltac leaf_back IH Ht Hrt Hx H :=
  match goal with
  | |- context [nth_error ?cs ?pos] =>
      destruct (nth_error cs pos) as [y|] eqn:En;
      [ pose proof (nth_error_lt _ _ _ En);
        repeat match goal with |- context [if ?b then _ else _] => destruct b end;
        first
          [ injection H as <-; exists None; split; reflexivity
          | refine (proj1 IH _ _ _ _ _ _ _ _ _ _ _ H);
              [ lia | apply (seq_ok_mono pos); [lia | exact Ht] | exact Hrt
              | apply (xok_mono _ pos); [exact Hx | lia] ] ]
      | injection H as <-; exists None; split; reflexivity ]
  end.

Lemma shift_bwd : forall f,
  (forall pos L cs c c' X r', pos <= length cs -> seq_ok pos L -> forallb ref_free L = true ->
     xok X pos -> match_from f pos (map shift L ++ X) cs c' = Done r' ->
     exists r, match_from f pos L cs c = Done r /\ rfst r r') /\
  (forall pos inner rest cs c c' X r', pos <= length cs -> pnode_ok inner = true ->
     ref_free inner = true -> seq_ok pos rest -> forallb ref_free rest = true -> xok X pos ->
     more f pos (shift inner) (map shift rest ++ X) cs c' = Done r' ->
     exists r, more f pos inner rest cs c = Done r /\ rfst r r').
Proof.
  induction f as [|f IH]; [split; intros; discriminate|].
  assert (Hsafe1 : forall cs i p c0, p <= length cs -> pnode_ok i = true ->
            safe p cs (match_from f p [i] cs c0))
    by (intros; apply (proj1 (match_from_safe f)); [assumption | apply seq_ok_single; assumption]).
  split.
  - intros pos [|h t] cs c c' X r' Hpos Hok Hrf Hx H.
    + exists (Some (pos, c)). split; [reflexivity|].
      destruct Hx as [-> | (sl & p0 & -> & Hp0)].
      * cbn [map app match_from] in H. injection H as <-. reflexivity.
      * cbn [map app match_from] in H.
        destruct ((p0 <=? pos) && (pos <=? length cs)); [|discriminate H].
        destruct f; cbn [match_from] in H; [discriminate H|]. injection H as <-. reflexivity.
    + apply seq_ok_cons in Hok as [Hh Ht]. apply pnode_cases in Hh.
      cbn [forallb] in Hrf. apply andb_true_iff in Hrf as [Hrh Hrt].
      change (map shift (h :: t) ++ X) with (shift h :: (map shift t ++ X)) in H.
      destruct h as [x| | | |s|s|h|h|h|h count|id brs|sl st|n];
        cbn [shift ref_free pnode_ok] in Hrh, Hh, H;
        cbn [match_from] in H |- *;
        try solve [leaf_back IH Ht Hrt Hx H].
      * (* Opt *)
        destruct (match_from f pos [shift h] cs c') as [r1'| |] eqn:E1'; cbn [obind] in H;
          try discriminate.
        destruct (proj1 IH pos [h] cs c c' [] r1' Hpos (seq_ok_single pos h Hh)
                    ltac:(simpl; rewrite Hrh; reflexivity) (or_introl eq_refl) E1')
          as (r1 & E1 & Hr1).
        rewrite E1. cbn [obind].
        pose proof (Hsafe1 cs h pos c Hpos Hh) as Hs1. rewrite E1 in Hs1.
        destruct r1 as [[p1 c1]|], r1' as [[p1' c1']|]; unfold rfst in Hr1; simpl in Hr1;
          try discriminate.
        -- injection Hr1 as <-. simpl in Hs1.
           destruct (match_from f p1 (map shift t ++ X) cs c1') as [r2'| |] eqn:E2';
             cbn [obind] in H; try discriminate.
           destruct (proj1 IH p1 t cs c1 c1' X r2' ltac:(lia) (seq_ok_mono pos p1 t ltac:(lia) Ht)
                       Hrt (xok_mono X pos p1 Hx ltac:(lia)) E2') as (r2 & E2 & Hr2).
           rewrite E2. cbn [obind].
           destruct r2 as [[e2 k2]|], r2' as [[e2' k2']|]; unfold rfst in Hr2; simpl in Hr2;
             try discriminate.
           ++ injection H as <-. injection Hr2 as <-. eexists; split; reflexivity.
           ++ exact (proj1 IH pos t cs c c' X r' Hpos Ht Hrt Hx H).
        -- exact (proj1 IH pos t cs c c' X r' Hpos Ht Hrt Hx H).
      * (* Plus *)
        exact (proj2 IH pos h t cs c c' X r' Hpos Hh Hrh Ht Hrt Hx H).
      * (* Star *)
        destruct (more f pos (shift h) (map shift t ++ X) cs c') as [r1'| |] eqn:E1';
          cbn [obind] in H; try discriminate.
        destruct (proj2 IH pos h t cs c c' X r1' Hpos Hh Hrh Ht Hrt Hx E1') as (r1 & E1 & Hr1).
        rewrite E1. cbn [obind].
        destruct r1 as [[e1 k1]|], r1' as [[e1' k1']|]; unfold rfst in Hr1; simpl in Hr1;
          try discriminate.
        -- injection H as <-. injection Hr1 as <-. eexists; split; reflexivity.
        -- exact (proj1 IH pos t cs c c' X r' Hpos Ht Hrt Hx H).
      * (* Rep *)
        revert pos c c' r' Hpos Ht Hx H.
        induction count as [|k IHk]; intros p c0 c0' r' Hp Ht Hx H; cbv beta iota in H |- *.
        -- exact (proj1 IH p t cs c0 c0' X r' Hp Ht Hrt Hx H).
        -- destruct (match_from f p [shift h] cs c0') as [r1'| |] eqn:E1'; cbn [obind] in H;
             try discriminate.
           destruct (proj1 IH p [h] cs c0 c0' [] r1' Hp (seq_ok_single p h Hh)
                       ltac:(simpl; rewrite Hrh; reflexivity) (or_introl eq_refl) E1')
             as (r1 & E1 & Hr1).
           rewrite E1. cbn [obind].
           pose proof (Hsafe1 cs h p c0 Hp Hh) as Hs1. rewrite E1 in Hs1.
           destruct r1 as [[np nc]|], r1' as [[np' nc']|]; unfold rfst in Hr1; simpl in Hr1;
             try discriminate.
           ++ injection Hr1 as <-. simpl in Hs1.
              exact (IHk np nc nc' r' ltac:(lia) (seq_ok_mono p np t ltac:(lia) Ht)
                       (xok_mono X p np Hx ltac:(lia)) H).
           ++ injection H as <-. exists None. split; reflexivity.
      * (* Cap *)
        apply andb_true_iff in Hh as [Hid Hbr]. apply negb_true_iff, Nat.eqb_neq in Hid.
        replace (Nat.eqb id 0) with false by (symmetry; apply Nat.eqb_neq; exact Hid).
        replace (S id - 1) with id in H by lia. cbn [Nat.eqb] in H.
        revert H Hbr Hrh. induction brs as [|b bs IHb]; intros H Hbr Hrh; cbn [map] in H |- *.
        -- injection H as <-. exists None. split; reflexivity.
        -- cbn [forallb] in Hbr, Hrh.
           apply andb_true_iff in Hbr as [Hb Hbs]. apply andb_true_iff in Hrh as [Hrb Hrbs].
           rewrite <- (map_shift_capend b id pos t X Hid) in H.
           destruct (match_from f pos (map shift (b ++ CapEnd (id - 1) pos :: t) ++ X) cs c')
             as [r1'| |] eqn:E1'; cbn [obind] in H; try discriminate.
           destruct (proj1 IH pos (b ++ CapEnd (id - 1) pos :: t) cs c c' X r1' Hpos
                       (seq_ok_capend pos b (id - 1) t Hb Ht)
                       ltac:(rewrite forallb_app; simpl; rewrite Hrb, Hrt; reflexivity) Hx E1')
             as (r1 & E1 & Hr1).
           rewrite E1. cbn [obind].
           destruct r1 as [[e1 k1]|], r1' as [[e1' k1']|]; unfold rfst in Hr1; simpl in Hr1;
             try discriminate.
           ++ injection H as <-. injection Hr1 as <-. eexists; split; reflexivity.
           ++ exact (IHb H Hbs Hrbs).
      * (* CapEnd *)
        destruct ((st <=? pos) && (pos <=? length cs)); [|discriminate H].
        exact (proj1 IH pos t cs _ _ X r' Hpos Ht Hrt Hx H).
      * (* Ref *)
        discriminate Hrh.
  - intros pos inner rest cs c c' X r' Hpos Hi Hri Hr Hrr Hx H.
    cbn [more] in H |- *.
    destruct (match_from f pos [shift inner] cs c') as [r1'| |] eqn:E1'; cbn [obind] in H;
      try discriminate.
    destruct (proj1 IH pos [inner] cs c c' [] r1' Hpos (seq_ok_single pos inner Hi)
                ltac:(simpl; rewrite Hri; reflexivity) (or_introl eq_refl) E1')
      as (r1 & E1 & Hr1).
    rewrite E1. cbn [obind].
    pose proof (Hsafe1 cs inner pos c Hpos Hi) as Hs1. rewrite E1 in Hs1.
    destruct r1 as [[p1 c1]|], r1' as [[p1' c1']|]; unfold rfst in Hr1; simpl in Hr1;
      try discriminate.
    + injection Hr1 as <-. simpl in Hs1.
      destruct (more f p1 (shift inner) (map shift rest ++ X) cs c1') as [r2'| |] eqn:E2';
        cbn [obind] in H; try discriminate.
      destruct (proj2 IH p1 inner rest cs c1 c1' X r2' ltac:(lia) Hi Hri
                  (seq_ok_mono pos p1 rest ltac:(lia) Hr) Hrr (xok_mono X pos p1 Hx ltac:(lia)) E2')
        as (r2 & E2 & Hr2).
      rewrite E2. cbn [obind].
      destruct r2 as [[e2 k2]|], r2' as [[e2' k2']|]; unfold rfst in Hr2; simpl in Hr2;
        try discriminate.
      * injection H as <-. injection Hr2 as <-. eexists; split; reflexivity.
      * exact (proj1 IH p1 rest cs c1 c1' X r' ltac:(lia) (seq_ok_mono pos p1 rest ltac:(lia) Hr)
                 Hrr (xok_mono X pos p1 Hx ltac:(lia)) H).
    + injection H as <-. exists None. split; reflexivity.
Qed.

Lemma match_from_cap1 : forall f pos ns cs c,
  match_from (S f) pos [Cap 1 [ns]] cs c =
  obind (match_from f pos (ns ++ [CapEnd 0 pos]) cs c)
    (fun r => match r with Some ec => Done (Some ec) | None => Done None end).
Proof. reflexivity. Qed.

Lemma any_start_sim : forall m1 m2 en n starts b,
  (forall j r1, In j starts -> m1 j = Done r1 -> exists r2, m2 j = Done r2 /\ rfst r1 r2) ->
  any_start m1 en n starts = Done b -> any_start m2 en n starts = Done b.
Proof.
  intros m1 m2 en n starts b. induction starts as [|j js IH]; intros H E; [exact E|].
  cbn [any_start] in E |- *.
  destruct (m1 j) as [r1| |] eqn:E1; cbn [obind] in E; try discriminate.
  destruct (H j r1 (or_introl eq_refl) E1) as (r2 & E2 & Hr). rewrite E2. cbn [obind].
  assert (IH' : any_start m1 en n js = Done b -> any_start m2 en n js = Done b)
    by (apply IH; intros j' r H1; apply H; right; exact H1).
  destruct r1 as [[e1 k1]|], r2 as [[e2 k2]|]; unfold rfst in Hr; simpl in Hr; try discriminate.
  - injection Hr as <-. destruct (if en then _ else _); [exact E | exact (IH' E)].
  - exact (IH' E).
Qed.

(** C8 (corrected). Wrapping a pattern [p] in a group keeps its result
    when the raw [(] and [)] of [p] balance (no [)] closes more than was
    opened), every raw [|] lies inside parentheses, [p] has no leading [^]
    and no anchoring trailing [$], and the parsed [p] has no
    back-reference (wrapping renumbers its groups). "Raw" matters: the
    group scanner and [branches] ignore backslashes and classes, so an
    escaped [\|] splits the wrapped group. Nested groups and alternations
    inside them are allowed. Under these conditions, for every [s] and
    fuel [f], a result of [is_match s p] at fuel [f] is also the result
    of [is_match s ("(" + p + ")")] at fuel [f + 2], and a result of the
    wrapped pattern at fuel [f] is also that of [p] at fuel [f]: each
    returns exactly when the other does, with the same value (the same
    error when [p] is rejected). *)
Theorem group_roundtrip : forall p s,
  group_body p 0 = true ->
  match p with c :: _ => N.eqb c CARET = false | [] => True end ->
  end_anchor p = false ->
  match parse p with Done (Ok (ns, _, _)) => forallb ref_free ns = true | _ => True end ->
  forall f r,
    (is_match f s p = Done r -> is_match (S (S f)) s (LPAREN :: p ++ [RPAREN]) = Done r) /\
    (is_match f s (LPAREN :: p ++ [RPAREN]) = Done r -> is_match f s p = Done r).
Proof.
  intros p s Hg Hc He Hrf f r.
  destruct (parse_wrap p Hg Hc He) as [Hp1 Hp2].
  pose proof (parse_post p) as Hpost.
  unfold is_match. rewrite Hp2. rewrite Hp1 in Hrf, Hpost |- *.
  destruct (elems (S (length p)) p 0) as [[[[ns rest] g1]|e]| |];
    cbn [rbind obind] in Hrf, Hpost |- *;
    [| split; intros H; exact H | split; intros H; discriminate H | split; intros H; discriminate H].
  cbv beta iota zeta. split; intros H.
  - destruct (any_start (fun st => match_from f st ns s []) false (length s)
                (seq 0 (S (length s)))) as [b| |] eqn:Ea; cbn [obind] in H; try discriminate.
    erewrite any_start_sim; [exact H | | exact Ea].
    intros j r1 Hj E1. apply in_seq in Hj.
    rewrite match_from_cap1.
    destruct (proj1 (shift_fwd f) j ns s [] [] [CapEnd 0 j] r1 ltac:(lia)
                (parsed_seq_ok ns j Hpost) Hrf
                (or_intror (ex_intro _ 0 (ex_intro _ j (conj eq_refl (le_n j))))) E1)
      as (r2 & E2 & Hr).
    rewrite E2. cbn [obind]. exists r2. split; [destruct r2; reflexivity | exact Hr].
  - destruct (any_start (fun st => match_from f st [Cap 1 [map shift ns]] s []) false (length s)
                (seq 0 (S (length s)))) as [b| |] eqn:Ea; cbn [obind] in H; try discriminate.
    erewrite any_start_sim; [exact H | | exact Ea].
    intros j r1 Hj E1. apply in_seq in Hj.
    destruct f as [|f']; [discriminate E1|]. rewrite match_from_cap1 in E1.
    destruct (match_from f' j (map shift ns ++ [CapEnd 0 j]) s []) as [r2| |] eqn:E2;
      cbn [obind] in E1; try discriminate.
    destruct (proj1 (shift_bwd f') j ns s [] [] [CapEnd 0 j] r2 ltac:(lia)
                (parsed_seq_ok ns j Hpost) Hrf
                (or_intror (ex_intro _ 0 (ex_intro _ j (conj eq_refl (le_n j))))) E2)
      as (r3 & E3 & Hr).
    exists r3. split.
    + rewrite (match_from_mono f' (S f')) by (lia || (rewrite E3; discriminate)). exact E3.
    + unfold rfst in *. rewrite Hr. destruct r2; injection E1 as <-; reflexivity.
Qed.

(** The nested group [(a|b)c] and the repeated group [(ab)+] round-trip. *)
Lemma group_roundtrip_witness :
  is_match 40 (str "xbc") (LPAREN :: str "(a|b)c" ++ [RPAREN]) = Done (Ok true) /\
  is_match 40 (str "abab") (str "(ab)+") = Done (Ok true).
Proof.
  split.
  - apply (proj1 (group_roundtrip (str "(a|b)c") (str "xbc") ltac:(vm_compute; reflexivity)
                    ltac:(vm_compute; reflexivity) ltac:(vm_compute; reflexivity)
                    ltac:(vm_compute; reflexivity) 38 (Ok true))).
    vm_compute. reflexivity.
  - apply (proj2 (group_roundtrip (str "(ab)+") (str "abab") ltac:(vm_compute; reflexivity)
                    ltac:(vm_compute; reflexivity) ltac:(vm_compute; reflexivity)
                    ltac:(vm_compute; reflexivity) 40 (Ok true))).
    vm_compute. reflexivity.
Defined.
